(** * databento-cpp: the historical client (src/historical.cpp)

    A shallow embedding of [historical.cpp] and of the builder declared in
    [include/databento/historical.hpp]:

    - exceptions are values of [exn] carried by the error monad [result];
    - [nlohmann::json] is the inductive [json], [httplib::Params] (a
      [std::multimap]) a key-ordered association list;
    - [Historical::TimeseriesStream] runs two threads; it is a transition
      system over [Stream.State], one step per access to the shared parser
      or to the shared flag, with every interleaving a run. *)

From Stdlib Require Import String Ascii DecimalString.
From Stdlib Require Import Arith Bool Lia NArith ZArith List.
Import ListNotations.

Set Implicit Arguments.
Set Warnings "-register-all".
Local Open Scope list_scope.

(** ** Exceptions and the error monad *)

(** The exception classes that reach the code of [historical.cpp]. *)
Inductive exn : Type :=
| runtime_error (what : string)      (* std::runtime_error *)
| logic_error (what : string)        (* std::logic_error *)
| json_type_error (what : string)    (* nlohmann::json::type_error 302 *)
| json_out_of_range (what : string)  (* nlohmann::json::out_of_range 403 *)
| invalid_argument (what : string)   (* raised by FromString<T> *)
| http_error (what : string).        (* raised by HttpClient *)

Inductive result (A : Type) : Type :=
| Ok (a : A)
| Throw (e : exn).
Arguments Ok {A} a.
Arguments Throw {A} e.

Definition bind {A B : Type} (r : result A) (k : A -> result B) : result B :=
  match r with
  | Ok a => k a
  | Throw e => Throw e
  end.

Declare Scope result_scope.
Delimit Scope result_scope with result.
Notation "x <- r ;; k" := (bind r (fun x => k))
  (at level 61, r at next level, right associativity) : result_scope.
Local Open Scope result_scope.

(** [for (const auto& x : xs) { ys.emplace_back(f(x)); }] where [f] may throw:
    the first exception ends the loop. *)
Fixpoint mapM {A B : Type} (f : A -> result B) (xs : list A) : result (list B) :=
  match xs with
  | [] => Ok []
  | x :: xs' => y <- f x ;; ys <- mapM f xs' ;; Ok (y :: ys)
  end.

Definition is_ok {A : Type} (r : result A) : bool :=
  match r with Ok _ => true | Throw _ => false end.

(** ** Strings *)

Definition str_empty (s : string) : bool :=
  match s with EmptyString => true | String _ _ => false end.

(** [std::to_string] of an unsigned value. *)
Definition to_string (n : N) : string := NilEmpty.string_of_uint (N.to_uint n).

(** ** httplib::Params

    [httplib::Params] is [std::multimap<std::string, std::string>]: entries are
    kept in key order, and [emplace] always inserts, after the entries whose
    key is not greater. *)
Definition Params : Type := list (string * string).

Fixpoint emplace (key value : string) (params : Params) : Params :=
  match params with
  | [] => [(key, value)]
  | (k, v) :: rest =>
      if String.ltb key k then (key, value) :: params
      else (k, v) :: emplace key value rest
  end.

(** The initializer-list constructor inserts the pairs from left to right. *)
Definition params_of (init : list (string * string)) : Params :=
  fold_left (fun m kv => emplace (fst kv) (snd kv) m) init [].

(** [count(key)] and the values stored under a key, in multimap order. *)
Definition values_at (key : string) (params : Params) : list string :=
  map snd (filter (fun kv => String.eqb (fst kv) key) params).

(** ** The optional-parameter helpers (historical.cpp, lines 41-79) *)

Definition SetIfNotEmpty (params : Params) (key value : string) : Params :=
  if negb (str_empty value) then emplace key value params else params.

(** The lambda given to [std::accumulate]. *)
Definition join_step (acc str : string) : string :=
  if str_empty acc then str else (acc ++ "," ++ str)%string.

Definition accumulate {A : Type} (f : string -> A -> string)
    (xs : list A) (init : string) : string :=
  fold_left f xs init.

Definition SetIfNotEmpty_strings (params : Params) (key : string)
    (strings : list string) : Params :=
  match strings with
  | [] => params
  | _ :: _ => emplace key (accumulate join_step strings EmptyString) params
  end.

Definition SetIfPositive (params : Params) (key : string) (value : N) : Params :=
  if (0 <? value)%N then emplace key (to_string value) params else params.

(** ** Enumerations with a textual form

    [ToString(T)] and [FromString<T>(const std::string&)] are declared in
    [enums.hpp], which is outside the verified sources: they are the methods
    of a class, and each enumeration is a parameter with an instance. *)
Class EnumStr (T : Type) : Type := {
  ToString : T -> string;
  FromString : string -> result T
}.

(** ** nlohmann::json

    The value kinds a parsed response can have.  An object is a
    [std::map<std::string, json>]: its members are listed in key order.
    [double] stands for IEEE binary64; its values are never inspected. *)
Section Json.

Variable double : Type.
Variable double_of_Z : Z -> double.           (* static_cast<double> *)

Inductive json : Type :=
| Jnull
| Jboolean (b : bool)
| Jnumber_unsigned (n : N)
| Jnumber_integer (z : Z)
| Jnumber_float (d : double)
| Jstring (s : string)
| Jarray (elems : list json)
| Jobject (members : list (string * json)).

Definition type_name (j : json) : string :=
  match j with
  | Jnull => "null"
  | Jboolean _ => "boolean"
  | Jnumber_unsigned _ | Jnumber_integer _ | Jnumber_float _ => "number"
  | Jstring _ => "string"
  | Jarray _ => "array"
  | Jobject _ => "object"
  end.

Definition is_object (j : json) : bool :=
  match j with Jobject _ => true | _ => false end.
Definition is_array (j : json) : bool :=
  match j with Jarray _ => true | _ => false end.
Definition is_string (j : json) : bool :=
  match j with Jstring _ => true | _ => false end.
Definition is_boolean (j : json) : bool :=
  match j with Jboolean _ => true | _ => false end.
Definition is_number_unsigned (j : json) : bool :=
  match j with Jnumber_unsigned _ => true | _ => false end.
(** [is_number_integer] holds of signed and of unsigned integers. *)
Definition is_number_integer (j : json) : bool :=
  match j with Jnumber_unsigned _ | Jnumber_integer _ => true | _ => false end.
Definition is_number (j : json) : bool :=
  match j with
  | Jnumber_unsigned _ | Jnumber_integer _ | Jnumber_float _ => true
  | _ => false
  end.

Fixpoint lookup (key : string) (members : list (string * json)) : option json :=
  match members with
  | [] => None
  | (k, v) :: rest => if String.eqb k key then Some v else lookup key rest
  end.

(** [json.contains(key)]: false on anything but an object. *)
Definition contains (j : json) (key : string) : bool :=
  match j with
  | Jobject members =>
      match lookup key members with Some _ => true | None => false end
  | _ => false
  end.

(** [json.at(key)]; the code calls it only under [contains]. *)
Definition at_key (j : json) (key : string) : result json :=
  match j with
  | Jobject members =>
      match lookup key members with
      | Some v => Ok v
      | None => Throw (json_out_of_range ("key '" ++ key ++ "' not found"))
      end
  | _ =>
      Throw (json_type_error ("cannot use at() with " ++ type_name j))
  end.

Definition index_keys (n : nat) : list string :=
  map (fun i => to_string (N.of_nat i)) (seq 0 n).

(** [json.items()]: the members of an object, the elements of an array under
    their index, nothing for null, and a scalar once, under the empty key. *)
Definition items (j : json) : list (string * json) :=
  match j with
  | Jnull => []
  | Jarray elems => combine (index_keys (List.length elems)) elems
  | Jobject members => members
  | _ => [(EmptyString, j)]
  end.

(** The implicit conversions [json -> T] ([get<T>()]); each checks the kind
    and throws [type_error] 302 otherwise. *)
Definition get_string (j : json) : result string :=
  match j with
  | Jstring s => Ok s
  | _ => Throw (json_type_error ("type must be string, but is " ++ type_name j))
  end.

Definition get_bool (j : json) : result bool :=
  match j with
  | Jboolean b => Ok b
  | _ => Throw (json_type_error ("type must be boolean, but is " ++ type_name j))
  end.

Definition number_error (j : json) : exn :=
  json_type_error ("type must be number, but is " ++ type_name j).

Definition wrap (bits : Z) (z : Z) : Z := z mod 2 ^ bits.
Definition wrap_signed (bits : Z) (z : Z) : Z :=
  let u := wrap bits z in
  if (u <? 2 ^ (bits - 1))%Z then u else (u - 2 ^ bits)%Z.

(** [std::size_t] is 64 bits wide.  (A float would be cast; every call of
    the two integer conversions comes after a check that excludes floats.) *)
Definition get_size_t (j : json) : result N :=
  match j with
  | Jnumber_unsigned n => Ok (Z.to_N (wrap 64 (Z.of_N n)))
  | Jnumber_integer z => Ok (Z.to_N (wrap 64 z))
  | _ => Throw (number_error j)
  end.

Definition get_int (bits : Z) (j : json) : result Z :=
  match j with
  | Jnumber_unsigned n => Ok (wrap_signed bits (Z.of_N n))
  | Jnumber_integer z => Ok (wrap_signed bits z)
  | _ => Throw (number_error j)
  end.

Definition get_double (j : json) : result double :=
  match j with
  | Jnumber_unsigned n => Ok (double_of_Z (Z.of_N n))
  | Jnumber_integer z => Ok (double_of_Z z)
  | Jnumber_float d => Ok d
  | _ => Throw (number_error j)
  end.

End Json.

Arguments Jnull {double}.
Arguments Jboolean {double} b.
Arguments Jnumber_unsigned {double} n.
Arguments Jnumber_integer {double} z.
Arguments Jstring {double} s.

(** ** What the absent headers provide

    [enums.hpp], [datetime.hpp], [constants.hpp], [http_client.hpp] and the
    serialiser of nlohmann::json are outside the verified sources.  The
    client is written against this interface. *)
Class Headers : Type := {
  double : Type;
  double_of_Z : Z -> double;
  SType : Type;
  Schema : Type;
  Compression : Type;
  DurationInterval : Type;
  Packaging : Type;
  Delivery : Type;
  FeedMode : Type;
  BatchState : Type;
  HistoricalGateway : Type;
  time_point : Type;
  EpochNanos : Type;
  SType_str :: EnumStr SType;
  Schema_str :: EnumStr Schema;
  Compression_str :: EnumStr Compression;
  DurationInterval_str :: EnumStr DurationInterval;
  Packaging_str :: EnumStr Packaging;
  Delivery_str :: EnumStr Delivery;
  FeedMode_str :: EnumStr FeedMode;
  BatchState_str :: EnumStr BatchState;
  ToString_time : time_point -> string;        (* datetime.hpp *)
  EpochNanos_of : Z -> EpochNanos;             (* EpochNanos{nanoseconds{n}} *)
  Nearest : HistoricalGateway;                 (* HistoricalGateway::Nearest *)
  (* the enumerators the overloads with defaults name *)
  Received : BatchState;
  Queued : BatchState;
  Processing : BatchState;
  Done : BatchState;
  Day : DurationInterval;
  Packaging_None : Packaging;
  Download : Delivery;
  Native : SType;
  ProductId : SType;
  Trades : Schema;
  HistoricalStreaming : FeedMode;
  UrlFromGateway : HistoricalGateway -> string;
  kApiVersionStr : string;                     (* constants.hpp *)
  dump : json double -> string;                (* operator<<(ostream&, json) *)
  (* HttpClient::GetJson and PostJson: the parsed response, or an exception *)
  GetJson : string -> Params -> result (json double);
  PostJson : string -> Params -> result (json double)
}.

Section Historical.

Context {hdr : Headers}.

Local Abbreviation json := (json double).

(** ** Paths and error values (historical.cpp, lines 24-106) *)

Definition BuildBatchPath (slug : string) : string :=
  ("/v" ++ kApiVersionStr ++ "/batch" ++ slug)%string.
Definition BuildMetadataPath (slug : string) : string :=
  ("/v" ++ kApiVersionStr ++ "/metadata" ++ slug)%string.
Definition BuildSymbologyPath (slug : string) : string :=
  ("/v" ++ kApiVersionStr ++ "/symbology" ++ slug)%string.

(** The overload of [SetIfNotEmpty] for batch states. *)
Definition join_state_step (acc : string) (state : BatchState) : string :=
  if str_empty acc then ToString state
  else (acc ++ "," ++ ToString state)%string.

Definition SetIfNotEmpty_states (params : Params) (key : string)
    (states : list BatchState) : Params :=
  match states with
  | [] => params
  | _ :: _ => emplace key (accumulate join_state_step states EmptyString) params
  end.

Definition MissingKey (endpoint key : string) : exn :=
  runtime_error ("Missing key '" ++ key ++ "' in response for " ++ endpoint).

(** The three-argument overload builds the error and returns it. *)
Definition TypeMismatch (endpoint expected_type : string) (j : json) : exn :=
  runtime_error ("Expected JSON " ++ expected_type ++ " response for "
                 ++ endpoint ++ ", got " ++ type_name j).

(** The four-argument overload is declared to return the error but throws
    it (line 105), so the caller's [throw] never receives a value. *)
Definition TypeMismatch_at (endpoint expected_type : string)
    (key value : json) : result exn :=
  Throw (runtime_error ("Expected " ++ expected_type
                        ++ " values in JSON response for " ++ endpoint
                        ++ ", got " ++ type_name value ++ " " ++ dump value
                        ++ " for key " ++ dump key)).

(** [throw e;] for an operand whose evaluation may itself throw. *)
Definition throw_of {A : Type} (e : result exn) : result A :=
  x <- e ;; Throw x.

Definition CheckedAt (endpoint : string) (j : json) (key : string) : result json :=
  if contains j key then at_key j key
  else Throw (MissingKey endpoint key).

Definition FromCheckedAtString {T : Type} `{!EnumStr T}
    (endpoint : string) (j : json) (key : string) : result T :=
  val_json <- CheckedAt endpoint j key ;;
  if negb (is_string val_json)
  then Throw (TypeMismatch endpoint (key ++ " string") val_json)
  else s <- get_string val_json ;; FromString s.

(** The specialisations of [ParseAt<T>] (lines 131-186). *)
Definition ParseAt_bool (endpoint : string) (j : json) (key : string) : result bool :=
  val_json <- CheckedAt endpoint j key ;;
  if negb (is_boolean val_json)
  then Throw (TypeMismatch endpoint (key ++ " bool") val_json)
  else get_bool val_json.

Definition ParseAt_string (endpoint : string) (j : json) (key : string) : result string :=
  val_json <- CheckedAt endpoint j key ;;
  if negb (is_string val_json)
  then Throw (TypeMismatch endpoint (key ++ " string") val_json)
  else get_string val_json.

Definition ParseAt_size_t (endpoint : string) (j : json) (key : string) : result N :=
  val_json <- CheckedAt endpoint j key ;;
  if negb (is_number_unsigned val_json)
  then Throw (TypeMismatch endpoint (key ++ " unsigned number") val_json)
  else get_size_t val_json.

Definition ParseAt_EpochNanos (endpoint : string) (j : json) (key : string)
    : result EpochNanos :=
  val_json <- CheckedAt endpoint j key ;;
  if negb (is_number_unsigned val_json)
  then Throw (TypeMismatch endpoint (key ++ " unsigned number") val_json)
  else n <- get_int 64 val_json ;; Ok (EpochNanos_of n).

(** [ParseAt<std::vector<std::string>>] (lines 172-186).  The value under
    [key] is looked up and checked, but the loop runs over [json.items()], the
    items of the enclosing value, and converts each of them to a string.
    ([reserve] has no effect on the contents.) *)
Definition ParseAt_strings (endpoint : string) (j : json) (key : string)
    : result (list string) :=
  symbols_json <- CheckedAt endpoint j key ;;
  if negb (is_array symbols_json)
  then Throw (TypeMismatch endpoint (key ++ " array") j)
  else mapM (fun item => get_string (snd item)) (items j).

(** ** Batch jobs (batch.hpp gives the record; its fields are those [Parse]
    assigns, with the types of the [ParseAt] specialisations used) *)
Record BatchJob : Type := {
  id : string;
  user_id : string;
  bill_id : string;
  dataset : string;
  symbols : list string;
  stype_in : SType;
  stype_out : SType;
  schema : Schema;
  start : EpochNanos;
  end_ : EpochNanos;
  limit : N;
  compression : Compression;
  split_duration : DurationInterval;
  split_size : N;
  split_symbols : bool;
  packaging : Packaging;
  delivery : Delivery;
  is_full_book : bool;
  is_example : bool;
  record_count : N;
  billed_size : N;
  actual_size : N;
  package_size : N
}.

(** [Parse] (lines 188-228): the fields are read in this order, and the first
    exception ends the function. *)
Definition Parse (endpoint : string) (j : json) : result BatchJob :=
  if negb (is_object j) then Throw (TypeMismatch endpoint "object" j) else
  id' <- (v <- CheckedAt endpoint j "id" ;; get_string v) ;;
  user_id' <- ParseAt_string endpoint j "user_id" ;;
  bill_id' <- ParseAt_string endpoint j "bill_id" ;;
  dataset' <- ParseAt_string endpoint j "dataset" ;;
  symbols' <- ParseAt_strings endpoint j "symbols" ;;
  stype_in' <- FromCheckedAtString endpoint j "stype_in" ;;
  stype_out' <- FromCheckedAtString endpoint j "stype_out" ;;
  schema' <- FromCheckedAtString endpoint j "schema" ;;
  start' <- ParseAt_EpochNanos endpoint j "start" ;;
  end' <- ParseAt_EpochNanos endpoint j "end" ;;
  limit' <- ParseAt_size_t endpoint j "limit" ;;
  compression' <- FromCheckedAtString endpoint j "compression" ;;
  split_duration' <- FromCheckedAtString endpoint j "split_duration" ;;
  split_size' <- ParseAt_size_t endpoint j "split_size" ;;
  split_symbols' <- ParseAt_bool endpoint j "split_symbols" ;;
  packaging' <- FromCheckedAtString endpoint j "packaging" ;;
  delivery' <- FromCheckedAtString endpoint j "delivery" ;;
  is_full_book' <- ParseAt_bool endpoint j "is_full_book" ;;
  is_example' <- ParseAt_bool endpoint j "is_example" ;;
  record_count' <- ParseAt_size_t endpoint j "record_count" ;;
  billed_size' <- ParseAt_size_t endpoint j "billed_size" ;;
  actual_size' <- ParseAt_size_t endpoint j "actual_size" ;;
  package_size' <- ParseAt_size_t endpoint j "package_size" ;;
  Ok {| id := id'; user_id := user_id'; bill_id := bill_id';
        dataset := dataset'; symbols := symbols'; stype_in := stype_in';
        stype_out := stype_out'; schema := schema'; start := start';
        end_ := end'; limit := limit'; compression := compression';
        split_duration := split_duration'; split_size := split_size';
        split_symbols := split_symbols'; packaging := packaging';
        delivery := delivery'; is_full_book := is_full_book';
        is_example := is_example'; record_count := record_count';
        billed_size := billed_size'; actual_size := actual_size';
        package_size := package_size' |}.

(** ** The batch API (lines 241-301)

    Each operation is split into the parameter set it sends and the
    treatment of the response. *)
Definition BatchSubmitJob_params (dataset : string) (schema : Schema)
    (symbols : list string) (start end_ : string)
    (split_duration : DurationInterval) (split_size : N)
    (packaging : Packaging) (delivery : Delivery)
    (stype_in stype_out : SType) (limit : N) : Params :=
  let params := params_of [("dataset", dataset);
                           ("schema", ToString schema);
                           ("encoding", "dbz");
                           ("start", start);
                           ("end", end_);
                           ("split_duration", ToString split_duration);
                           ("packaging", ToString packaging);
                           ("delivery", ToString delivery);
                           ("stype_in", ToString stype_in);
                           ("stype_out", ToString stype_out)]%string in
  let params := SetIfPositive params "split_size" split_size in
  let params := SetIfPositive params "limit" limit in
  SetIfNotEmpty_strings params "symbols" symbols.

Definition BatchSubmitJob (dataset : string) (schema : Schema)
    (symbols : list string) (start end_ : string)
    (split_duration : DurationInterval) (split_size : N)
    (packaging : Packaging) (delivery : Delivery)
    (stype_in stype_out : SType) (limit : N) : result BatchJob :=
  j <- PostJson (BuildBatchPath ".submit_job")
         (BatchSubmitJob_params dataset schema symbols start end_
            split_duration split_size packaging delivery stype_in stype_out
            limit) ;;
  Parse "BatchSubmitJob" j.

Definition BatchSubmitJob_default (dataset : string) (schema : Schema)
    (symbols : list string) (start end_ : string) : result BatchJob :=
  BatchSubmitJob dataset schema symbols start end_ Day 0%N Packaging_None
    Download Native ProductId 0%N.

Definition BatchListJobs_params (states : list BatchState) (since : string)
    : Params :=
  let params := SetIfNotEmpty_states [] "states" states in
  SetIfNotEmpty params "since" since.

(** What [BatchListJobs] does with the response (lines 292-300).  Line 293
    calls the three-argument [TypeMismatch], which returns the error; the
    statement has no [throw], so the value is dropped and the loop over
    [json.items()] runs whatever the kind of the response. *)
Definition BatchListJobs_response (j : json) : result (list BatchJob) :=
  let kEndpoint := "BatchListJobs"%string in
  let _ := if negb (is_array j)
           then Some (TypeMismatch kEndpoint "array" j) else None in
  mapM (fun job_json => Parse kEndpoint (snd job_json)) (items j).

Definition BatchListJobs (states : list BatchState) (since : string)
    : result (list BatchJob) :=
  j <- GetJson (BuildBatchPath ".list_jobs")
         (BatchListJobs_params states since) ;;
  BatchListJobs_response j.

Definition kDefaultStates : list BatchState :=
  [Received; Queued; Processing; Done].

Definition BatchListJobs_default : result (list BatchJob) :=
  BatchListJobs kDefaultStates EmptyString.

(** ** The metadata API (lines 303-519)

    A [std::map] built by [emplace] is the list of the entries in the order
    of the calls; [emplace] keeps the first entry of a key, which is the one
    a lookup from the left finds. *)
Definition MetadataListPublishers_response (j : json)
    : result (list (string * Z)) :=
  let kEndpoint := "ListPublishers"%string in
  if negb (is_object j) then Throw (TypeMismatch kEndpoint "object" j) else
  mapM (fun pair =>
          if negb (is_number_integer (snd pair))
          then throw_of (TypeMismatch_at kEndpoint "integer number"
                           (Jstring (fst pair)) (snd pair))
          else pub_id <- get_int 32 (snd pair) ;; Ok (fst pair, pub_id))
       (items j).

Definition MetadataListPublishers : result (list (string * Z)) :=
  j <- GetJson (BuildMetadataPath ".list_publishers") [] ;;
  MetadataListPublishers_response j.

Definition MetadataListDatasets_params (start_date end_date : string) : Params :=
  let params := SetIfNotEmpty [] "start_date" start_date in
  SetIfNotEmpty params "end_date" end_date.

Definition MetadataListDatasets_response (j : json) : result (list string) :=
  let kEndpoint := "ListDatasets"%string in
  if negb (is_array j) then Throw (TypeMismatch kEndpoint "array" j) else
  mapM (fun item =>
          if negb (is_string (snd item))
          then throw_of (TypeMismatch_at kEndpoint "string"
                           (Jstring (fst item)) (snd item))
          else get_string (snd item))
       (items j).

Definition MetadataListDatasets (start_date end_date : string)
    : result (list string) :=
  j <- GetJson (BuildMetadataPath ".list_datasets")
         (MetadataListDatasets_params start_date end_date) ;;
  MetadataListDatasets_response j.

Definition MetadataListSchemas_params (dataset start_date end_date : string)
    : Params :=
  let params := params_of [("dataset", dataset)]%string in
  let params := SetIfNotEmpty params "start_date" start_date in
  SetIfNotEmpty params "end_date" end_date.

Definition MetadataListSchemas_response (j : json) : result (list Schema) :=
  let kEndpoint := "ListSchemas"%string in
  if negb (is_array j) then Throw (TypeMismatch kEndpoint "array" j) else
  mapM (fun item =>
          if negb (is_string (snd item))
          then throw_of (TypeMismatch_at kEndpoint "string"
                           (Jstring (fst item)) (snd item))
          else str <- get_string (snd item) ;; FromString str)
       (items j).

Definition MetadataListSchemas (dataset start_date end_date : string)
    : result (list Schema) :=
  j <- GetJson (BuildMetadataPath ".list_schemas")
         (MetadataListSchemas_params dataset start_date end_date) ;;
  MetadataListSchemas_response j.

Definition kListUnitPricesEndpoint : string := "ListUnitPrices".
Definition kListUnitPricesPath : string := BuildMetadataPath ".list_unit_prices".

(** The loop over [schema -> price] objects shared, textually, by two of the
    overloads of [MetadataListUnitPrices]. *)
Definition schema_prices_of (expected : string) (j : json)
    : result (list (Schema * double)) :=
  mapM (fun schema_and_price =>
          if negb (is_number (snd schema_and_price))
          then throw_of (TypeMismatch_at kListUnitPricesEndpoint expected
                           (Jstring (fst schema_and_price))
                           (snd schema_and_price))
          else schema <- FromString (fst schema_and_price) ;;
               price <- get_double double_of_Z (snd schema_and_price) ;;
               Ok (schema, price))
       (items j).

Definition MetadataListUnitPrices_response (j : json)
    : result (list (FeedMode * list (Schema * double))) :=
  if negb (is_object j)
  then Throw (TypeMismatch kListUnitPricesEndpoint "object" j) else
  mapM (fun mode_and_prices =>
          if negb (is_object (snd mode_and_prices))
          then throw_of (TypeMismatch_at kListUnitPricesEndpoint "object"
                           (Jstring (fst mode_and_prices))
                           (snd mode_and_prices))
          else schema_prices <- schema_prices_of "nested number"
                                  (snd mode_and_prices) ;;
               mode <- FromString (fst mode_and_prices) ;;
               Ok (mode, schema_prices))
       (items j).

Definition MetadataListUnitPrices (dataset : string)
    : result (list (FeedMode * list (Schema * double))) :=
  j <- GetJson kListUnitPricesPath (params_of [("dataset", dataset)]%string) ;;
  MetadataListUnitPrices_response j.

Definition MetadataListUnitPrices_mode_response (mode_str : string) (j : json)
    : result (list (Schema * double)) :=
  if negb (is_object j)
  then Throw (TypeMismatch kListUnitPricesEndpoint "object" j) else
  json_map <- CheckedAt kListUnitPricesEndpoint j mode_str ;;
  schema_prices_of "number" json_map.

Definition MetadataListUnitPrices_mode (dataset : string) (mode : FeedMode)
    : result (list (Schema * double)) :=
  let mode_str := ToString mode in
  j <- GetJson kListUnitPricesPath
         (params_of [("dataset", dataset); ("mode", mode_str)]%string) ;;
  MetadataListUnitPrices_mode_response mode_str j.

Definition MetadataListUnitPrices_schema_response (schema_str : string)
    (j : json) : result (list (FeedMode * double)) :=
  if negb (is_object j)
  then Throw (TypeMismatch kListUnitPricesEndpoint "object" j) else
  mapM (fun mode_and_prices =>
          if negb (is_object (snd mode_and_prices))
          then throw_of (TypeMismatch_at kListUnitPricesEndpoint "object"
                           (Jstring (fst mode_and_prices))
                           (snd mode_and_prices))
          else price_json <- CheckedAt "ListUnitPrices"
                               (snd mode_and_prices) schema_str ;;
               if negb (is_number price_json)
               then Throw (TypeMismatch kListUnitPricesEndpoint "number"
                             price_json)
               else mode <- FromString (fst mode_and_prices) ;;
                    price <- get_double double_of_Z price_json ;;
                    Ok (mode, price))
       (items j).

Definition MetadataListUnitPrices_schema (dataset : string) (schema : Schema)
    : result (list (FeedMode * double)) :=
  let schema_str := ToString schema in
  j <- GetJson kListUnitPricesPath
         (params_of [("dataset", dataset); ("schema", schema_str)]%string) ;;
  MetadataListUnitPrices_schema_response schema_str j.

Definition MetadataListUnitPrices_price_response (j : json) : result double :=
  if negb (is_number j) then Throw (TypeMismatch "ListUnitPrices" "number" j)
  else get_double double_of_Z j.

Definition MetadataListUnitPrices_price (dataset : string) (mode : FeedMode)
    (schema : Schema) : result double :=
  j <- GetJson kListUnitPricesPath
         (params_of [("dataset", dataset); ("mode", ToString mode);
                     ("schema", ToString schema)]%string) ;;
  MetadataListUnitPrices_price_response j.

Definition MetadataGetBillableSize_params (dataset start end_ : string)
    (symbols : list string) (schema : Schema) (stype_in : SType) (limit : N)
    : Params :=
  let params := params_of [("dataset", dataset);
                           ("schema", ToString schema);
                           ("stype_in", ToString stype_in)]%string in
  let params := SetIfNotEmpty params "start" start in
  let params := SetIfNotEmpty params "end" end_ in
  let params := SetIfPositive params "limit" limit in
  SetIfNotEmpty_strings params "symbols" symbols.

Definition MetadataGetBillableSize_response (j : json) : result N :=
  if negb (is_number_unsigned j)
  then Throw (TypeMismatch "GetBillableSize" "unsigned number" j)
  else get_size_t j.

Definition MetadataGetBillableSize (dataset start end_ : string)
    (symbols : list string) (schema : Schema) (stype_in : SType) (limit : N)
    : result N :=
  j <- GetJson (BuildMetadataPath ".get_billable_size")
         (MetadataGetBillableSize_params dataset start end_ symbols schema
            stype_in limit) ;;
  MetadataGetBillableSize_response j.

Definition MetadataGetBillableSize_default (dataset start end_ : string)
    : result N :=
  MetadataGetBillableSize dataset start end_ [] Trades Native 0%N.

Definition MetadataGetCost_params (dataset start end_ : string)
    (mode : FeedMode) (symbols : list string) (schema : Schema)
    (stype_in : SType) (limit : N) : Params :=
  let params := params_of [("dataset", dataset);
                           ("mode", ToString mode);
                           ("schema", ToString schema);
                           ("stype_in", ToString stype_in)]%string in
  let params := SetIfNotEmpty params "start" start in
  let params := SetIfNotEmpty params "end" end_ in
  let params := SetIfNotEmpty_strings params "symbols" symbols in
  SetIfPositive params "limit" limit.

Definition MetadataGetCost_response (j : json) : result double :=
  if negb (is_number j) then Throw (TypeMismatch "GetCost" "number" j)
  else get_double double_of_Z j.

Definition MetadataGetCost (dataset start end_ : string) (mode : FeedMode)
    (symbols : list string) (schema : Schema) (stype_in : SType) (limit : N)
    : result double :=
  j <- GetJson (BuildMetadataPath ".get_cost")
         (MetadataGetCost_params dataset start end_ mode symbols schema
            stype_in limit) ;;
  MetadataGetCost_response j.

Definition MetadataGetCost_default (dataset start end_ : string)
    : result double :=
  MetadataGetCost dataset start end_ HistoricalStreaming [] Trades Native 0%N.

(** ** The symbology API (lines 521-594)

    [symbology.hpp] is absent; the three members of a [MappingInterval] are
    strings, initialised from the values under "d0", "d1" and "s". *)
Record MappingInterval : Type := {
  start_date : string;
  end_date : string;
  symbol : string
}.

Record SymbologyResolution : Type := {
  mappings : list (string * list MappingInterval);
  partial : list string;
  not_found : list string
}.

Definition SymbologyResolve_params (dataset : string) (symbols : list string)
    (stype_in stype_out : SType) (start_date end_date default_value : string)
    : Params :=
  let params := params_of [("dataset", dataset);
                           ("stype_in", ToString stype_in);
                           ("stype_out", ToString stype_out);
                           ("start_date", start_date);
                           ("end_date", end_date);
                           ("default_value", default_value)]%string in
  SetIfNotEmpty_strings params "symbols" symbols.

Definition nested_strings (kEndpoint : string) (j : json) : result (list string) :=
  mapM (fun symbol =>
          if negb (is_string (snd symbol))
          then throw_of (TypeMismatch_at kEndpoint "nested string"
                           (Jstring (fst symbol)) (snd symbol))
          else get_string (snd symbol))
       (items j).

Definition SymbologyResolve_response (j : json) : result SymbologyResolution :=
  let kEndpoint := "SymbologyResolve"%string in
  if negb (is_object j) then Throw (TypeMismatch kEndpoint "object" j) else
  mappings_json <- CheckedAt "SymbologyResolve" j "result" ;;
  partial_json <- CheckedAt "SymbologyResolve" j "partial" ;;
  not_found_json <- CheckedAt "SymbologyResolve" j "not_found" ;;
  if negb (is_object mappings_json)
  then Throw (TypeMismatch kEndpoint "mappings object" mappings_json) else
  mappings' <-
    mapM (fun mapping =>
            let mapping_json := snd mapping in
            if negb (is_array mapping_json)
            then throw_of (TypeMismatch_at kEndpoint "array"
                             (Jstring (fst mapping)) mapping_json)
            else
              mapping_intervals <-
                mapM (fun interval_json =>
                        d0 <- (v <- CheckedAt kEndpoint (snd interval_json) "d0" ;;
                               get_string v) ;;
                        d1 <- (v <- CheckedAt kEndpoint (snd interval_json) "d1" ;;
                               get_string v) ;;
                        s <- (v <- CheckedAt kEndpoint (snd interval_json) "s" ;;
                              get_string v) ;;
                        Ok {| start_date := d0; end_date := d1; symbol := s |})
                     (items mapping_json) ;;
              Ok (fst mapping, mapping_intervals))
         (items mappings_json) ;;
  if negb (is_array partial_json)
  then Throw (TypeMismatch kEndpoint "partial array" partial_json) else
  partial' <- nested_strings kEndpoint partial_json ;;
  if negb (is_array not_found_json)
  then Throw (TypeMismatch kEndpoint "not_found array" not_found_json) else
  not_found' <- nested_strings kEndpoint not_found_json ;;
  Ok {| mappings := mappings'; partial := partial'; not_found := not_found' |}.

Definition SymbologyResolve (dataset : string) (symbols : list string)
    (stype_in stype_out : SType) (start_date end_date default_value : string)
    : result SymbologyResolution :=
  j <- GetJson (BuildSymbologyPath ".resolve")
         (SymbologyResolve_params dataset symbols stype_in stype_out
            start_date end_date default_value) ;;
  SymbologyResolve_response j.

(** The overload without [default_value] passes [{}], the empty string. *)
Definition SymbologyResolve_default (dataset : string) (symbols : list string)
    (stype_in stype_out : SType) (start_date end_date : string)
    : result SymbologyResolution :=
  SymbologyResolve dataset symbols stype_in stype_out start_date end_date
    EmptyString.

(** The path and the parameter set of [TimeseriesStream] (lines 603-611). *)
Definition TimeseriesStream_path : string := BuildSymbologyPath ".stream".

Definition TimeseriesStream_params (dataset : string) (symbols : list string)
    (schema : Schema) (start end_ : time_point) (stype_in stype_out : SType)
    (limit : N) : Params :=
  let params := params_of [("dataset", dataset);
                           ("schema", ToString schema);
                           ("stype_in", ToString stype_in);
                           ("stype_out", ToString stype_out);
                           ("start", ToString_time start);
                           ("end", ToString_time end_)]%string in
  let params := SetIfNotEmpty_strings params "symbols" symbols in
  SetIfPositive params "limit" limit.

(** ** Historical and HistoricalBuilder (lines 231-239 and 635-659) *)

(** [HttpClient] is absent; a client is the arguments it was built from. *)
Record HttpClient : Type := {
  client_key : string;
  client_gateway : string;
  client_port : option N
}.

Record Historical : Type := {
  key_ : string;
  gateway_ : string;
  client_ : HttpClient
}.

Definition Historical_new (key : string) (gateway : HistoricalGateway)
    : Historical :=
  let gateway_url := UrlFromGateway gateway in
  {| key_ := key; gateway_ := gateway_url;
     client_ := {| client_key := key; client_gateway := gateway_url;
                   client_port := None |} |}.

Definition Historical_new_port (key gateway : string) (port : N) : Historical :=
  {| key_ := key; gateway_ := gateway;
     client_ := {| client_key := key; client_gateway := gateway;
                   client_port := Some port |} |}.

(** The getters [key()] and [gateway()]. *)
Definition key (h : Historical) : string := key_ h.
Definition gateway (h : Historical) : string := gateway_ h.

Record HistoricalBuilder : Type := {
  builder_key_ : string;
  builder_gateway_ : HistoricalGateway
}.

(** [HistoricalBuilder() = default]: an empty key, the nearest gateway. *)
Definition HistoricalBuilder_new : HistoricalBuilder :=
  {| builder_key_ := EmptyString; builder_gateway_ := Nearest |}.

Definition HistoricalBuilder_key (b : HistoricalBuilder) (key : string) : HistoricalBuilder :=
  {| builder_key_ := key; builder_gateway_ := builder_gateway_ b |}.

Definition HistoricalBuilder_gateway (b : HistoricalBuilder) (gateway : HistoricalGateway)
    : HistoricalBuilder :=
  {| builder_key_ := builder_key_ b; builder_gateway_ := gateway |}.

(** [keyFromEnv]: [env_key] is what [std::getenv("DATABENTO_API_KEY")]
    returned, [None] for a null pointer. *)
Definition keyFromEnv (b : HistoricalBuilder) (env_key : option string)
    : result HistoricalBuilder :=
  match env_key with
  | None =>
      Throw (runtime_error
               "Expected environment variable DATABENTO_API_KEY to be set")
  | Some k => Ok (HistoricalBuilder_key b k)
  end.

(** [Build] moves the key out of the builder; its state afterwards is not
    specified and not modelled. *)
Definition Build (b : HistoricalBuilder) : result Historical :=
  if str_empty (builder_key_ b) then Throw (logic_error "key is unset")
  else Ok (Historical_new (builder_key_ b) (builder_gateway_ b)).

End Historical.

(** ** Historical::TimeseriesStream (lines 596-633) *)

Module Stream.

Abbreviation bytes := (list Byte.byte).

(** A metadata block and a record are the bytes of their frames. *)
Abbreviation Metadata := bytes.
Abbreviation Record_ := bytes.

(** Modelled from the spec: the wire format.  [dbz_parser.hpp],
    [record.hpp] and [metadata.hpp] are absent and the spec leaves the layout
    open, so the sizes of the two headers, the length fields and the record
    count of a metadata block are parameters. *)
Record Wire : Type := {
  metadata_header_size : nat;
  metadata_length : bytes -> nat;     (* total length declared by a header *)
  record_header_size : nat;
  record_length : bytes -> nat;
  max_frame_size : nat;
  record_count_of : Metadata -> nat   (* Metadata::record_count *)
}.

Inductive Error : Type :=
| DecodeError
| EndOfStream
| TruncatedFrameError
| TransportError          (* HttpRequestError, exceptions.cpp *)
| CallbackError.          (* anything a user callback throws *)

(** *** DbzParser *)

(** Modelled from the spec: the state of [DbzParser], the decoder's byte
    buffer and whether the end of input has been signalled. *)
Record DbzParser : Type := {
  buffer : bytes;       (* received and not yet consumed *)
  finished : bool       (* end of input has been signalled *)
}.

Definition DbzParser_new : DbzParser := {| buffer := []; finished := false |}.

(** Modelled from the spec: [DbzParser::PassBytes] is the decoder's [feed];
    it appends to the buffer and never fails. *)
Definition PassBytes (p : DbzParser) (data : bytes) : DbzParser :=
  {| buffer := buffer p ++ data; finished := finished p |}.

(** Modelled from the spec: [DbzParser::EndInput] is [signalEndOfInput]. *)
Definition EndInput (p : DbzParser) : DbzParser :=
  {| buffer := buffer p; finished := true |}.

Inductive Slice : Type :=
| NeedMore
| Malformed
| Frame (frame rest : bytes).

(** Modelled from the spec: the frame at the front of the buffer.  A header
    of [hsize] bytes declares the total length; a length of zero or above the
    maximum is malformed; otherwise exactly that many bytes are sliced off
    the front and the rest stays buffered. *)
Definition slice_frame (max_size hsize : nat) (length_of : bytes -> nat)
    (buf : bytes) : Slice :=
  if List.length buf <? hsize then NeedMore
  else
    let n := length_of (firstn hsize buf) in
    if (n =? 0) || (max_size <? n) then Malformed
    else if List.length buf <? n then NeedMore
    else Frame (firstn n buf) (skipn n buf).

(** What a blocking call finds when it looks at the parser. *)
Inductive Poll : Type :=
| Ready (frame : bytes) (p : DbzParser)
| Blocked                       (* the caller stays suspended *)
| Fails (e : Error).

(** Modelled from the spec: [nextMetadata] and [nextRecord].  With too few
    bytes the call suspends until more are fed or the input has ended; after
    the end of input an empty buffer is a clean end and a partial frame a
    truncation. *)
Definition ParseFrame (max_size hsize : nat) (length_of : bytes -> nat)
    (p : DbzParser) : Poll :=
  match slice_frame max_size hsize length_of (buffer p) with
  | Frame frame rest => Ready frame {| buffer := rest; finished := finished p |}
  | Malformed => Fails DecodeError
  | NeedMore =>
      if finished p then
        match buffer p with
        | [] => Fails EndOfStream
        | _ :: _ => Fails TruncatedFrameError
        end
      else Blocked
  end.

Definition ParseMetadata (W : Wire) (p : DbzParser) : Poll :=
  ParseFrame (max_frame_size W) (metadata_header_size W) (metadata_length W) p.

Definition ParseRecord (W : Wire) (p : DbzParser) : Poll :=
  ParseFrame (max_frame_size W) (record_header_size W) (record_length W) p.

(** *** The callbacks and the transport *)

Inductive KeepGoing : Type := Continue | Stop.

Definition is_Continue (k : KeepGoing) : bool :=
  match k with Continue => true | Stop => false end.

Inductive Call (A : Type) : Type :=
| Returns (a : A)
| Raises (e : Error).
Arguments Returns {A} a.
Arguments Raises {A} e.

(** The two [std::function] arguments ([MetadataCallback] and
    [RecordCallback] of [timeseries.hpp]).  A record callback may carry
    state: it is given the records of its earlier invocations. *)
Record Callbacks : Type := {
  metadata_callback : Metadata -> Call unit;
  callback : list Record_ -> Record_ -> Call KeepGoing
}.

Inductive TransferEnd : Type :=
| Complete       (* GetRawStream returns after the last chunk *)
| Broken.        (* the read fails: GetRawStream throws *)

(** Modelled from the spec: [HttpClient::GetRawStream] ([http_client.hpp]
    is absent) performs a blocking chunked read: it hands each chunk of the
    body to the receiver, in order; a receiver that returns false cancels
    the transfer and the call returns; a body received to its end makes the
    call return; a failed read makes it throw the transport error
    ([HttpRequestError], whose message [exceptions.cpp] builds).  A response
    is the chunks it delivers and how the call ends after the last of
    them. *)
Record Transport : Type := {
  chunks : list bytes;
  ending : TransferEnd
}.

(** *** The two threads

    The program counter of the thread started at line 616: the call of
    [GetRawStream] with the receiver of lines 619-623, then [EndInput]. *)
Inductive Producer : Type :=
| P_Receive (rest : list bytes)   (* in GetRawStream, waiting for the body *)
| P_Load (rest : list bytes)      (* in the receiver, line 622 *)
| P_EndInput                      (* GetRawStream has returned, line 624 *)
| P_Done                          (* the thread function has returned *)
| P_Uncaught (e : Error).         (* an exception left the thread function *)

(** The program counter of the calling thread, lines 626-632. *)
Inductive Consumer : Type :=
| C_ParseMetadata                                    (* line 626 *)
| C_MetadataCallback (metadata : Metadata)           (* lines 627-628 *)
| C_Loop (i record_count : nat) (seen : list Record_)   (* line 629 *)
| C_Callback (i record_count : nat) (seen : list Record_) (r : Record_)
                                                     (* line 630 *)
| C_Join                                             (* line 632 *)
| C_Returned
| C_Unwinding (e : Error)    (* an exception leaves the function body *)
| C_Raised (e : Error).      (* the exception has reached the caller *)

Inductive HowEnded : Type := Succeeded | Cancelled | Failed.

(** What happened, oldest first. *)
Inductive Event : Type :=
| EvSpawn                           (* std::thread constructed *)
| EvPassBytes (data : bytes)
| EvLoad (b : bool)                 (* should_continue.load() *)
| EvTransferEnd (how : HowEnded)    (* GetRawStream is over *)
| EvEndInput
| EvParsed (frame : bytes)          (* ParseMetadata or ParseRecord returned *)
| EvMetadata (metadata : Metadata)  (* metadata_callback called *)
| EvRecord (r : Record_)            (* callback called *)
| EvStore (b : bool)                (* should_continue = ... *)
| EvThrow (e : Error)               (* thrown on the calling thread *)
| EvJoin
| EvTerminate.                      (* std::terminate *)

Record State : Type := mkState {
  producer : Producer;
  consumer : Consumer;
  dbz_parser : DbzParser;
  should_continue : bool;      (* std::atomic<bool> *)
  joinable : bool;             (* stream.joinable() *)
  terminated : bool;           (* std::terminate has been called *)
  log : list Event
}.

Section Run.

Variable W : Wire.
Variable cb : Callbacks.
Variable T : Transport.

(** Lines 613-625: the flag is set, the parser is empty, the thread runs. *)
Definition init : State :=
  mkState (P_Receive (chunks T)) C_ParseMetadata DbzParser_new true true false
    [EvSpawn].

(** One step of the producer thread.  The thread function has no handler:
    an exception that leaves it calls [std::terminate]. *)
Definition producer_step (s : State) : option State :=
  if terminated s then None else
  match producer s with
  | P_Receive (data :: rest) =>
      Some (mkState (P_Load rest) (consumer s)
              (PassBytes (dbz_parser s) data) (should_continue s)
              (joinable s) false (log s ++ [EvPassBytes data]))
  | P_Receive [] =>
      match ending T with
      | Complete =>
          Some (mkState P_EndInput (consumer s) (dbz_parser s)
                  (should_continue s) (joinable s) false
                  (log s ++ [EvTransferEnd Succeeded]))
      | Broken =>
          Some (mkState (P_Uncaught TransportError) (consumer s)
                  (dbz_parser s) (should_continue s) (joinable s) true
                  (log s ++ [EvTransferEnd Failed; EvTerminate]))
      end
  | P_Load rest =>
      if should_continue s then
        Some (mkState (P_Receive rest) (consumer s) (dbz_parser s)
                (should_continue s) (joinable s) false
                (log s ++ [EvLoad true]))
      else
        Some (mkState P_EndInput (consumer s) (dbz_parser s)
                (should_continue s) (joinable s) false
                (log s ++ [EvLoad false; EvTransferEnd Cancelled]))
  | P_EndInput =>
      Some (mkState P_Done (consumer s) (EndInput (dbz_parser s))
              (should_continue s) (joinable s) false
              (log s ++ [EvEndInput]))
  | P_Done | P_Uncaught _ => None
  end.

(** [throw] on the calling thread: the body is left. *)
Definition throw (s : State) (e : Error) (events : list Event) : State :=
  mkState (producer s) (C_Unwinding e) (dbz_parser s) (should_continue s)
    (joinable s) false (log s ++ events ++ [EvThrow e]).

(** One step of the calling thread.  [ParseMetadata] and [ParseRecord]
    block: while the parser says [Blocked] the thread has no step.  [join]
    blocks until the thread function has returned.  An exception unwinds
    through the local [std::thread stream], whose destructor calls
    [std::terminate] when the thread is still joinable. *)
Definition consumer_step (s : State) : option State :=
  if terminated s then None else
  match consumer s with
  | C_ParseMetadata =>
      match ParseMetadata W (dbz_parser s) with
      | Ready metadata p =>
          Some (mkState (producer s) (C_MetadataCallback metadata) p
                  (should_continue s) (joinable s) false
                  (log s ++ [EvParsed metadata]))
      | Blocked => None
      | Fails e => Some (throw s e [])
      end
  | C_MetadataCallback metadata =>
      match metadata_callback cb metadata with
      | Returns _ =>
          Some (mkState (producer s) (C_Loop 0 (record_count_of W metadata) [])
                  (dbz_parser s) (should_continue s) (joinable s) false
                  (log s ++ [EvMetadata metadata]))
      | Raises e => Some (throw s e [EvMetadata metadata])
      end
  | C_Loop i record_count seen =>
      if i <? record_count then
        match ParseRecord W (dbz_parser s) with
        | Ready r p =>
            Some (mkState (producer s) (C_Callback i record_count seen r) p
                    (should_continue s) (joinable s) false
                    (log s ++ [EvParsed r]))
        | Blocked => None
        | Fails e => Some (throw s e [])
        end
      else
        Some (mkState (producer s) C_Join (dbz_parser s) (should_continue s)
                (joinable s) false (log s))
  | C_Callback i record_count seen r =>
      match callback cb seen r with
      | Returns k =>
          Some (mkState (producer s) (C_Loop (S i) record_count (seen ++ [r]))
                  (dbz_parser s) (is_Continue k) (joinable s) false
                  (log s ++ [EvRecord r; EvStore (is_Continue k)]))
      | Raises e => Some (throw s e [EvRecord r])
      end
  | C_Join =>
      match producer s with
      | P_Done =>
          Some (mkState P_Done C_Returned (dbz_parser s) (should_continue s)
                  false false (log s ++ [EvJoin]))
      | _ => None
      end
  | C_Unwinding e =>
      if joinable s then
        Some (mkState (producer s) (C_Unwinding e) (dbz_parser s)
                (should_continue s) true true (log s ++ [EvTerminate]))
      else
        Some (mkState (producer s) (C_Raised e) (dbz_parser s)
                (should_continue s) false false (log s))
  | C_Returned | C_Raised _ => None
  end.

Inductive Thread : Type := producer_thread | consumer_thread.

Definition step_of (t : Thread) (s : State) : option State :=
  match t with
  | producer_thread => producer_step s
  | consumer_thread => consumer_step s
  end.

Definition other (t : Thread) : Thread :=
  match t with
  | producer_thread => consumer_thread
  | consumer_thread => producer_thread
  end.

(** A slot of the schedule: the thread named runs if it can, else the other
    one does, else nothing can run. *)
Definition slot (s : State) (t : Thread) : State :=
  match step_of t s with
  | Some s' => s'
  | None =>
      match step_of (other t) s with
      | Some s' => s'
      | None => s
      end
  end.

Definition run (schedule : list Thread) (s : State) : State :=
  fold_left slot schedule s.

Definition step (s s' : State) : Prop :=
  exists t, step_of t s = Some s'.

Inductive reachable : State -> Prop :=
| reachable_init : reachable init
| reachable_step s s' : reachable s -> step s s' -> reachable s'.

(** No thread can run. *)
Definition final (s : State) : bool :=
  match producer_step s, consumer_step s with
  | None, None => true
  | _, _ => false
  end.

(** How the call ended, if it did. *)
Inductive Outcome : Type :=
| Returned
| Raised (e : Error)
| Terminated.

Definition outcome (s : State) : option Outcome :=
  if terminated s then Some Terminated
  else match consumer s with
       | C_Returned => Some Returned
       | C_Raised e => Some (Raised e)
       | _ => None
       end.

End Run.

(** *** Reading the log *)

Definition is_call (e : Event) : bool :=
  match e with EvMetadata _ | EvRecord _ => true | _ => false end.

(** The invocations of the two callbacks, in order. *)
Definition calls (l : list Event) : list Event := filter is_call l.

Definition metadata_calls (l : list Event) : list Metadata :=
  flat_map (fun e => match e with EvMetadata m => [m] | _ => [] end) l.

Definition record_calls (l : list Event) : list Record_ :=
  flat_map (fun e => match e with EvRecord r => [r] | _ => [] end) l.

(** The frames the parser handed out, and the chunks it was fed. *)
Definition parsed (l : list Event) : list bytes :=
  flat_map (fun e => match e with EvParsed f => [f] | _ => [] end) l.

Definition passed (l : list Event) : list bytes :=
  flat_map (fun e => match e with EvPassBytes d => [d] | _ => [] end) l.

Definition event_eqb (e1 e2 : Event) : bool :=
  match e1, e2 with
  | EvSpawn, EvSpawn | EvEndInput, EvEndInput | EvJoin, EvJoin
  | EvTerminate, EvTerminate => true
  | EvTransferEnd Succeeded, EvTransferEnd Succeeded
  | EvTransferEnd Cancelled, EvTransferEnd Cancelled
  | EvTransferEnd Failed, EvTransferEnd Failed => true
  | _, _ => false
  end.

(** How often one of the events without data occurs. *)
Definition occurrences (e : Event) (l : list Event) : nat :=
  List.length (filter (event_eqb e) l).

(** The records handed to the callback after the flag was first cleared. *)
Fixpoint records_after_stop (l : list Event) : list Record_ :=
  match l with
  | [] => []
  | EvStore false :: rest => record_calls rest
  | _ :: rest => records_after_stop rest
  end.

(** *** A bound on the length of a run *)

Definition pending (p : Producer) : list bytes :=
  match p with
  | P_Receive rest | P_Load rest => rest
  | _ => []
  end.

Definition producer_fuel (p : Producer) : nat :=
  match p with
  | P_Receive rest => 2 * List.length rest + 2
  | P_Load rest => 2 * List.length rest + 3
  | P_EndInput => 1
  | P_Done | P_Uncaught _ => 0
  end.

Definition consumer_fuel (avail : nat) (c : Consumer) : nat :=
  match c with
  | C_ParseMetadata => 2 * avail + 6
  | C_MetadataCallback _ => 2 * avail + 5
  | C_Loop _ _ _ => 2 * avail + 4
  | C_Callback _ _ _ _ => 2 * avail + 5
  | C_Join => 3
  | C_Unwinding _ => 2
  | C_Returned | C_Raised _ => 0
  end.

(** The bytes the calling thread can still be given. *)
Definition available (s : State) : nat :=
  List.length (buffer (dbz_parser s))
  + List.length (concat (pending (producer s))).

Definition fuel (s : State) : nat :=
  if terminated s then 0
  else 1 + producer_fuel (producer s) + consumer_fuel (available s) (consumer s).

(** *** Well-formed streams *)

(** A frame that declares its own length, within the bounds. *)
Definition valid_frame (max_size hsize : nat) (length_of : bytes -> nat)
    (frame : bytes) : Prop :=
  hsize <= List.length frame /\
  length_of (firstn hsize frame) = List.length frame /\
  0 < List.length frame <= max_size.

(** The body is one metadata frame, the records it declares, and possibly
    more bytes. *)
Record well_formed (W : Wire) (T : Transport) (metadata : Metadata)
    (records : list Record_) (extra : bytes) : Prop := {
  wf_body : concat (chunks T) = metadata ++ concat records ++ extra;
  wf_metadata : valid_frame (max_frame_size W) (metadata_header_size W)
                  (metadata_length W) metadata;
  wf_records : Forall (valid_frame (max_frame_size W) (record_header_size W)
                         (record_length W)) records;
  wf_count : record_count_of W metadata = List.length records
}.

(** The callbacks neither throw nor ask to stop on this stream. *)
Definition obliging (cb : Callbacks) (metadata : Metadata)
    (records : list Record_) : Prop :=
  metadata_callback cb metadata = Returns tt /\
  forall i r, nth_error records i = Some r ->
              callback cb (firstn i records) r = Returns Continue.

(** *** Invariants of the runs *)

Definition is_done (p : Producer) : bool :=
  match p with P_Done => true | _ => false end.

Definition is_returned (c : Consumer) : bool :=
  match c with C_Returned => true | _ => false end.

Section Invariants.

Variable W : Wire.
Variable T : Transport.
Variable m : Metadata.
Variable records : list Record_.

(** How the program counters, the flags and the log go together. *)
Record sync (s : State) : Prop := {
  sync_finished : finished (dbz_parser s) = is_done (producer s);
  sync_joinable : joinable s = negb (is_returned (consumer s));
  sync_raised : forall e, consumer s <> C_Raised e;
  sync_returned :
    consumer s = C_Returned -> producer s = P_Done /\ terminated s = false;
  sync_uncaught :
    forall e, producer s = P_Uncaught e ->
              terminated s = true /\ e = TransportError;
  sync_terminated :
    terminated s = true ->
    (exists e, producer s = P_Uncaught e) \/
    (exists e, consumer s = C_Unwinding e);
  sync_spawn : occurrences EvSpawn (log s) = 1;
  sync_end_input :
    occurrences EvEndInput (log s) = if is_done (producer s) then 1 else 0;
  sync_join :
    occurrences EvJoin (log s) = if is_returned (consumer s) then 1 else 0;
  sync_failed :
    occurrences (EvTransferEnd Failed) (log s)
    = match producer s with P_Uncaught _ => 1 | _ => 0 end;
  sync_ended :
    occurrences (EvTransferEnd Succeeded) (log s)
    + occurrences (EvTransferEnd Cancelled) (log s)
    = match producer s with P_EndInput | P_Done => 1 | _ => 0 end;
  sync_terminate :
    occurrences EvTerminate (log s) = if terminated s then 1 else 0
}.


(** What the calling thread has taken from the parser and handed to the
    callbacks, by where it stands. *)
Definition consumer_view (c : Consumer) (frames : list bytes)
    (called : list Event) : Prop :=
  match c with
  | C_ParseMetadata => frames = [] /\ called = []
  | C_MetadataCallback m => frames = [m] /\ called = []
  | C_Loop i K seen =>
      exists m, frames = m :: seen /\
                called = EvMetadata m :: map EvRecord seen /\
                K = record_count_of W m /\ i = length seen /\ i <= K
  | C_Callback i K seen r =>
      exists m, frames = m :: seen ++ [r] /\
                called = EvMetadata m :: map EvRecord seen /\
                K = record_count_of W m /\ i = length seen /\ i < K
  | C_Join | C_Returned =>
      exists m seen, frames = m :: seen /\
                     called = EvMetadata m :: map EvRecord seen /\
                     length seen = record_count_of W m
  | C_Unwinding _ | C_Raised _ =>
      called = [] \/
      exists m seen, called = EvMetadata m :: map EvRecord seen /\
                     length seen <= record_count_of W m
  end.

(** Where the bytes of the body are. *)
Record data (s : State) : Prop := {
  data_bytes :
    concat (parsed (log s)) ++ buffer (dbz_parser s)
    = concat (passed (log s));
  data_chunks :
    match producer s with
    | P_Receive rest | P_Load rest => passed (log s) ++ rest = chunks T
    | _ => exists rest, passed (log s) ++ rest = chunks T
    end;
  data_consumer : consumer_view (consumer s) (parsed (log s)) (calls (log s))
}.


(** Nothing is thrown, the flag stays set, the whole body is passed on, and
    the frames taken are the metadata and the records, in order. *)
Record live (s : State) : Prop := {
  live_running : terminated s = false;
  live_flag : should_continue s = true;
  live_producer :
    match producer s with
    | P_Receive _ | P_Load _ => True
    | P_EndInput | P_Done => passed (log s) = chunks T
    | P_Uncaught _ => False
    end;
  live_consumer :
    match consumer s with
    | C_ParseMetadata => True
    | C_MetadataCallback md => md = m
    | C_Loop i K seen =>
        parsed (log s) = m :: seen /\ seen = firstn i records /\
        K = length records
    | C_Callback i K seen r =>
        parsed (log s) = m :: seen ++ [r] /\ seen = firstn i records /\
        nth_error records i = Some r /\ K = length records
    | C_Join | C_Returned => parsed (log s) = m :: records
    | C_Unwinding _ | C_Raised _ => False
    end
}.


End Invariants.

(** *** More readings of a run *)

(** The value the stores of line 630 leave in the flag, which starts true. *)
Definition stored_flag (l : list Event) : bool :=
  fold_left (fun flag e => match e with EvStore b => b | _ => flag end) l true.

(** The values stored in the flag, oldest first. *)
Definition stores (l : list Event) : list bool :=
  flat_map (fun e => match e with EvStore b => [b] | _ => [] end) l.

(** What line 630 computes from the answers of the record callback on the
    records [rs], called in this order after the records [seen]: one value
    for each call that returns, true for [Continue]; a call that throws
    gives none. *)
Fixpoint answers (cb : Callbacks) (seen rs : list Record_) : list bool :=
  match rs with
  | [] => []
  | r :: rest =>
      match callback cb seen r with
      | Returns k => [is_Continue k]
      | Raises _ => []
      end ++ answers cb (seen ++ [r]) rest
  end.

(** The frame parsed and not yet handed to its callback, if there is one. *)
Definition in_hand (c : Consumer) : list bytes :=
  match c with
  | C_MetadataCallback m => [m]
  | C_Callback _ _ _ r => [r]
  | _ => []
  end.

End Stream.

(** ** Client programs and concrete inputs *)

(** A use of the builder: calls of its setters in sequence, then [Build]. *)
Section BuilderCalls.

Context {hdr : Headers}.

Inductive BuilderCall : Type :=
| call_key (k : string)
| call_keyFromEnv
| call_gateway (g : HistoricalGateway).

Definition apply_call (env_key : option string) (b : HistoricalBuilder)
    (c : BuilderCall) : result HistoricalBuilder :=
  match c with
  | call_key k => Ok (HistoricalBuilder_key b k)
  | call_keyFromEnv => keyFromEnv b env_key
  | call_gateway g => Ok (HistoricalBuilder_gateway b g)
  end.

Fixpoint configure (env_key : option string) (calls : list BuilderCall)
    (b : HistoricalBuilder) : result HistoricalBuilder :=
  match calls with
  | [] => Ok b
  | c :: rest => b' <- apply_call env_key b c ;; configure env_key rest b'
  end.

(** The key in effect after the calls: the one of the last call that sets
    it, the empty string when there is none. *)
Fixpoint key_set (env_key : option string) (calls : list BuilderCall)
    (current : string) : string :=
  match calls with
  | [] => current
  | call_key k :: rest => key_set env_key rest k
  | call_keyFromEnv :: rest =>
      key_set env_key rest (match env_key with Some k => k | None => current end)
  | call_gateway _ :: rest => key_set env_key rest current
  end.

Fixpoint gateway_set (calls : list BuilderCall) (current : HistoricalGateway)
    : HistoricalGateway :=
  match calls with
  | [] => current
  | call_gateway g :: rest => gateway_set rest g
  | _ :: rest => gateway_set rest current
  end.

End BuilderCalls.

(** The comma-separated form of a list, and the list without its leading
    empty strings. *)
Fixpoint skip_empty (strings : list string) : list string :=
  match strings with
  | [] => []
  | str :: rest => if str_empty str then skip_empty rest else strings
  end.

Definition comma_separated (strings : list string) : string :=
  String.concat "," strings.

(** What an optional parameter contributes to the request. *)
Definition optional_number (n : N) : list string :=
  if (n =? 0)%N then [] else [to_string n].

Definition optional_string (s : string) : list string :=
  if str_empty s then [] else [s].

Definition optional_list (strings : list string) : list string :=
  match strings with
  | [] => []
  | _ :: _ => [comma_separated (skip_empty strings)]
  end.

(** The keys of a parameter set are pairwise distinct and among [allowed]. *)
Definition keys_within (allowed : list string) (m : Params) : Prop :=
  NoDup (map fst m) /\ incl (map fst m) allowed.

Fixpoint distinct (keys : list string) : bool :=
  match keys with
  | [] => true
  | k :: rest => negb (existsb (String.eqb k) rest) && distinct rest
  end.

Module Sample.

Local Open Scope string_scope.

(** Enumerations are their textual form, a double is an integer, and every
    request is answered by [response]. *)
Definition text : EnumStr string :=
  {| ToString := fun s => s; FromString := fun s => Ok s |}.

Definition headers (response : json Z) : Headers :=
  {| double := Z; double_of_Z := fun z => z;
     SType := string; Schema := string; Compression := string;
     DurationInterval := string; Packaging := string; Delivery := string;
     FeedMode := string; BatchState := string; HistoricalGateway := string;
     time_point := string; EpochNanos := Z;
     SType_str := text; Schema_str := text; Compression_str := text;
     DurationInterval_str := text; Packaging_str := text;
     Delivery_str := text; FeedMode_str := text; BatchState_str := text;
     ToString_time := fun t => t; EpochNanos_of := fun z => z;
     Nearest := "nearest";
     Received := "received"; Queued := "queued";
     Processing := "processing"; Done := "done";
     Day := "day"; Packaging_None := "none"; Download := "download";
     Native := "native"; ProductId := "product_id"; Trades := "trades";
     HistoricalStreaming := "historical-streaming";
     UrlFromGateway := fun g => ("https://" ++ g ++ ".databento.com")%string;
     kApiVersionStr := "0";
     dump := fun j => type_name j;
     GetJson := fun _ _ => Ok response;
     PostJson := fun _ _ => Ok response |}.

(** A server that answers [null]. *)
Definition env : Headers := headers Jnull.

(** [HistoricalBuilder{}.key("db-first").gateway(bo1).keyFromEnv()], and the
    builder it leaves when the variable holds "db-env-key". *)
Definition calls : list (@BuilderCall env) :=
  [call_key "db-first"; @call_gateway env "bo1"; call_keyFromEnv].

Definition built : @HistoricalBuilder env :=
  @Build_HistoricalBuilder env "db-env-key" "bo1".

(** The members of a complete batch job, in key order, and the job. *)
Definition job_members : list (string * json Z) :=
  [("actual_size", Jnumber_unsigned 2022690);
   ("bill_id", Jstring "73186317");
   ("billed_size", Jnumber_unsigned 5156064);
   ("compression", Jstring "zstd");
   ("dataset", Jstring "GLBX.MDP3");
   ("delivery", Jstring "download");
   ("end", Jnumber_unsigned 1651104000000000000);
   ("id", Jstring "GLBX-20221031-L3RVE95CV5");
   ("is_example", Jboolean false);
   ("is_full_book", Jboolean false);
   ("limit", Jnumber_unsigned 0);
   ("package_size", Jnumber_unsigned 2026761);
   ("packaging", Jstring "none");
   ("record_count", Jnumber_unsigned 107418);
   ("schema", Jstring "trades");
   ("split_duration", Jstring "day");
   ("split_size", Jnumber_unsigned 0);
   ("split_symbols", Jboolean false);
   ("start", Jnumber_unsigned 1651017600000000000);
   ("stype_in", Jstring "native");
   ("stype_out", Jstring "product_id");
   ("symbols", Jarray [Jstring "ESH1"; Jstring "ESM1"]);
   ("user_id", Jstring "TEST_USER")]%N.

Definition job : json Z := Jobject job_members.

End Sample.

Module StreamSample.

Import Stream.

(** Concrete streams: a two-byte header whose first byte is the length of the
    frame; the second byte of the metadata frame is the record count; at
    most 64 bytes to a frame. *)
Definition first_byte (b : bytes) : nat :=
  match b with
  | x :: _ => Byte.to_nat x
  | [] => 0
  end.

Definition second_byte (b : bytes) : nat :=
  match b with
  | _ :: x :: _ => Byte.to_nat x
  | _ => 0
  end.

Definition wire : Wire :=
  {| metadata_header_size := 2; metadata_length := first_byte;
     record_header_size := 2; record_length := first_byte;
     max_frame_size := 64; record_count_of := second_byte |}.

(** A metadata frame declaring three records, and three records. *)
Definition metadata3 : Metadata := [Byte.x03; Byte.x03; Byte.x00].
Definition record1 : Record_ := [Byte.x03; Byte.x01; Byte.xa1].
Definition record2 : Record_ := [Byte.x04; Byte.x01; Byte.xb1; Byte.xb2].
Definition record3 : Record_ := [Byte.x02; Byte.x01].

(** The body in four chunks, one frame each; the same body cut across the
    frames; a body that breaks off; a metadata header declaring 255 bytes. *)
Definition by_frame : Transport :=
  {| chunks := [metadata3; record1; record2; record3]; ending := Complete |}.

Definition across_frames : Transport :=
  {| chunks := [[Byte.x03; Byte.x03]; [Byte.x00; Byte.x03; Byte.x01];
                [Byte.xa1; Byte.x04; Byte.x01; Byte.xb1; Byte.xb2; Byte.x02];
                [Byte.x01]];
     ending := Complete |}.

Definition broken : Transport :=
  {| chunks := [metadata3; record1]; ending := Broken |}.

Definition absurd : Transport :=
  {| chunks := [[Byte.xff; Byte.x03; Byte.x00]]; ending := Complete |}.

Definition willing : Callbacks :=
  {| metadata_callback := fun _ => Returns tt;
     callback := fun _ _ => Returns Continue |}.

(** Asks to stop at the first record, and at every later one. *)
Definition stopping : Callbacks :=
  {| metadata_callback := fun _ => Returns tt;
     callback := fun _ _ => Returns Stop |}.

(** Throws in the record callback, at the second record. *)
Definition throwing : Callbacks :=
  {| metadata_callback := fun _ => Returns tt;
     callback := fun seen _ => match seen with
                               | [] => Returns Continue
                               | _ :: _ => Raises CallbackError
                               end |}.

Definition P := producer_thread.
Definition C := consumer_thread.

(** A schedule in which the producer runs to its end before the calling
    thread does anything, and one in which the two alternate. *)
Definition producer_first : list Thread := repeat P 12 ++ repeat C 12.
Definition alternating : list Thread :=
  concat (repeat [P; C] 24).

End StreamSample.

(** ** Responses as a server would build them, and the other sources *)

Section Encoders.

Context {hdr : Headers}.

Local Abbreviation json := (json double).

(** The value of an integer response, signed or unsigned. *)
Definition int_value (j : json) : option Z :=
  match j with
  | Jnumber_unsigned n => Some (Z.of_N n)
  | Jnumber_integer z => Some z
  | _ => None
  end.

(** The object one mapping interval is sent as. *)
Definition encode_interval (i : MappingInterval) : json :=
  Jobject [("d0"%string, Jstring (start_date i));
           ("d1"%string, Jstring (end_date i));
           ("s"%string, Jstring (symbol i))].

(** The response of the symbology endpoint that carries a resolution. *)
Definition encode_resolution (r : SymbologyResolution) : json :=
  Jobject [("not_found"%string, Jarray (map Jstring (not_found r)));
           ("partial"%string, Jarray (map Jstring (partial r)));
           ("result"%string,
            Jobject (map (fun entry => (fst entry,
                                        Jarray (map encode_interval (snd entry))))
                       (mappings r)))].

(** The response of the unit-price endpoint that carries the prices of each
    schema under each feed mode. *)
Definition encode_schema_prices (prices : list (Schema * double)) : json :=
  Jobject (map (fun entry => (ToString (fst entry), Jnumber_float (snd entry)))
             prices).

Definition encode_prices (prices : list (FeedMode * list (Schema * double)))
    : json :=
  Jobject (map (fun entry => (ToString (fst entry),
                              encode_schema_prices (snd entry)))
             prices).

(** *** exceptions.cpp, lines 56-91: the messages of [JsonResponseError]

    Each factory builds the text and wraps it in the exception; the text is
    what is modelled.  [what] is [parse_error.what()]. *)
Definition JsonResponseError_ParseError (method_name what : string) : string :=
  ("Error parsing JSON response to " ++ method_name ++ " " ++ what)%string.

Definition JsonResponseError_MissingKey (path : string) (key : json) : string :=
  ("Missing key '" ++ dump key ++ "' in response for " ++ path)%string.

Definition JsonResponseError_TypeMismatch (method_name expected_type_name : string)
    (j : json) : string :=
  ("Expected JSON " ++ expected_type_name ++ " response for " ++ method_name
   ++ ", got " ++ type_name j)%string.

Definition JsonResponseError_TypeMismatch_at
    (method_name expected_type_name : string) (key value : json) : string :=
  ("Expected " ++ expected_type_name ++ " values in JSON response for "
   ++ method_name ++ ", got " ++ type_name value ++ " " ++ dump value
   ++ " for key " ++ dump key)%string.

End Encoders.

(** *** test/include/mock/mock_lsg_server.hpp, lines 41-62

    A record is the bytes of its object representation and [header_size] is
    [sizeof(RecordHeader)].  [Send] is only declared in the header: the
    connection and what [Send] does to it are parameters. *)
Module MockLsgServer.

Section Sending.

Variable Server : Type.
Variable Send : Server -> list Byte.byte -> Server.

Definition SendRecord (srv : Server) (rec : list Byte.byte) : Server :=
  Send srv rec.

(** [SplitSendRecord]: the first [sizeof(RecordHeader)] bytes, a wait until
    [send_remaining] holds, then the other [sizeof(Rec) -
    sizeof(RecordHeader)] bytes.  With a record shorter than the header the
    first read runs past the object and the second length wraps: no result.
    While [send_remaining] is false the call stays in the wait: the result
    is the connection so far and [false]. *)
Definition SplitSendRecord (header_size : nat) (send_remaining : bool)
    (srv : Server) (rec : list Byte.byte) : option (Server * bool) :=
  if length rec <? header_size then None
  else
    let first_part := firstn header_size rec in
    let srv := Send srv first_part in
    if send_remaining then
      let second_part :=
        firstn (length rec - header_size) (skipn header_size rec) in
      Some (Send srv second_part, true)
    else Some (srv, false).

End Sending.

End MockLsgServer.

(** * Properties *)

(** ** Responses *)

Section Responses.

Context {hdr : Headers}.

Local Abbreviation json := (json double).

Lemma is_ok_bind_left {A B : Type} (r : result A) (k : A -> result B) :
  is_ok r = false -> is_ok (bind r k) = false.
Proof. destruct r; simpl; [discriminate | reflexivity]. Qed.

Lemma is_ok_bind_right {A B : Type} (r : result A) (k : A -> result B) :
  (forall a, is_ok (k a) = false) -> is_ok (bind r k) = false.
Proof. intros Hk. destruct r; simpl; [apply Hk | reflexivity]. Qed.

Lemma get_string_cases (j : json) :
  (exists s, get_string j = Ok s) \/
  (exists what, get_string j = Throw (json_type_error what)).
Proof. destruct j; simpl; eauto. Qed.

(** Converting the values of an object to strings fails as soon as one of
    them is an array. *)
Lemma strings_of_members_throw (key : string) (elems : list json) :
  forall members,
    lookup key members = Some (Jarray elems) ->
    exists what,
      mapM (fun item : string * json => get_string (snd item)) members
      = Throw (json_type_error what).
Proof.
  induction members as [|[k v] rest IH]; simpl; intros Hl.
  - discriminate.
  - destruct (String.eqb k key).
    + inversion Hl; subst v. simpl. eauto.
    + destruct (get_string_cases v) as [[s Hs]|[what Hw]].
      * rewrite Hs. simpl. destruct (IH Hl) as [what Hw]. rewrite Hw.
        simpl. eauto.
      * rewrite Hw. simpl. eauto.
Qed.

Lemma ParseAt_strings_never_returns (endpoint : string) (j : json)
    (key : string) :
  is_ok (ParseAt_strings endpoint j key) = false.
Proof.
  unfold ParseAt_strings, CheckedAt, contains, at_key.
  destruct j; simpl; try reflexivity.
  destruct (lookup key members) as [v|] eqn:Hl; simpl; [|reflexivity].
  destruct v; simpl; try reflexivity.
  destruct (strings_of_members_throw _ _ Hl) as [what Hw].
  rewrite Hw. reflexivity.
Qed.

(** [Parse] reads "symbols" through [ParseAt_strings]: it returns for no
    response at all. *)
Lemma Parse_never_returns (endpoint : string) (j : json) :
  is_ok (Parse endpoint j) = false.
Proof.
  unfold Parse. destruct (negb (is_object j)); [reflexivity|].
  do 4 (apply is_ok_bind_right; intros ?).
  apply is_ok_bind_left, ParseAt_strings_never_returns.
Qed.

(** C8.  For a response object whose "symbols" member is an array,
    [ParseAt<std::vector<std::string>>] does not yield the elements of that
    array: its loop converts the members of the whole response to strings and
    throws nlohmann's [type_error]; so [Parse] yields no batch job. *)
Theorem ParseAt_strings_reads_the_response (endpoint : string)
    (members : list (string * json)) (elems : list json) :
  lookup "symbols" members = Some (Jarray elems) ->
  (exists what,
      ParseAt_strings endpoint (Jobject members) "symbols"
      = Throw (json_type_error what)) /\
  is_ok (Parse endpoint (Jobject members)) = false.
Proof.
  intros Hl. split; [|apply Parse_never_returns].
  unfold ParseAt_strings, CheckedAt, contains, at_key. rewrite Hl. simpl.
  exact (strings_of_members_throw _ _ Hl).
Qed.

(** A wrong kind of response is reported by every operation that checks it
    with [throw ::TypeMismatch(...)]. *)
Lemma top_level_mismatch_raises (j : json) :
  (is_object j = false ->
   forall endpoint, Parse endpoint j = Throw (TypeMismatch endpoint "object" j)) /\
  (is_object j = false ->
   MetadataListPublishers_response j
   = Throw (TypeMismatch "ListPublishers" "object" j)) /\
  (is_array j = false ->
   MetadataListDatasets_response j
   = Throw (TypeMismatch "ListDatasets" "array" j)) /\
  (is_array j = false ->
   MetadataListSchemas_response j
   = Throw (TypeMismatch "ListSchemas" "array" j)) /\
  (is_object j = false ->
   MetadataListUnitPrices_response j
   = Throw (TypeMismatch "ListUnitPrices" "object" j)) /\
  (is_object j = false ->
   forall mode_str, MetadataListUnitPrices_mode_response mode_str j
   = Throw (TypeMismatch "ListUnitPrices" "object" j)) /\
  (is_object j = false ->
   forall schema_str, MetadataListUnitPrices_schema_response schema_str j
   = Throw (TypeMismatch "ListUnitPrices" "object" j)) /\
  (is_number j = false ->
   MetadataListUnitPrices_price_response j
   = Throw (TypeMismatch "ListUnitPrices" "number" j)) /\
  (is_number_unsigned j = false ->
   MetadataGetBillableSize_response j
   = Throw (TypeMismatch "GetBillableSize" "unsigned number" j)) /\
  (is_number j = false ->
   MetadataGetCost_response j = Throw (TypeMismatch "GetCost" "number" j)) /\
  (is_object j = false ->
   SymbologyResolve_response j
   = Throw (TypeMismatch "SymbologyResolve" "object" j)).
Proof.
  unfold Parse, MetadataListPublishers_response, MetadataListDatasets_response,
    MetadataListSchemas_response, MetadataListUnitPrices_response,
    MetadataListUnitPrices_mode_response,
    MetadataListUnitPrices_schema_response,
    MetadataListUnitPrices_price_response, MetadataGetBillableSize_response,
    MetadataGetCost_response, SymbologyResolve_response,
    kListUnitPricesEndpoint.
  repeat split; intros Hk; intros; rewrite Hk; reflexivity.
Qed.

(** C7.  [BatchListJobs] does not raise on a response that is not an array:
    line 293 builds the error without throwing it.  A null response and an
    empty object give an empty list of jobs, where [MetadataListDatasets],
    which has the [throw], raises. *)
Theorem BatchListJobs_accepts_non_arrays (states : list BatchState)
    (since : string) (j : json) :
  GetJson (BuildBatchPath ".list_jobs") (BatchListJobs_params states since)
  = Ok j ->
  j = Jnull \/ j = Jobject [] ->
  is_array j = false /\
  BatchListJobs states since = Ok [] /\
  MetadataListDatasets_response j
  = Throw (TypeMismatch "ListDatasets" "array" j).
Proof.
  intros Hget Hj. unfold BatchListJobs. rewrite Hget.
  destruct Hj; subst j; repeat split.
Qed.

End Responses.

Lemma ParseAt_strings_reads_the_response_witness :
  lookup "symbols" Sample.job_members
  = Some (Jarray [Jstring "ESH1"; Jstring "ESM1"]) /\
  ((exists what,
       ParseAt_strings (hdr := Sample.env) "BatchSubmitJob" Sample.job
         "symbols"
       = Throw (json_type_error what)) /\
   is_ok (Parse (hdr := Sample.env) "BatchSubmitJob" Sample.job) = false).
Proof.
  split; [reflexivity|].
  apply (ParseAt_strings_reads_the_response (hdr := Sample.env)
           "BatchSubmitJob" Sample.job_members
           (elems := [Jstring "ESH1"; Jstring "ESM1"])).
  reflexivity.
Defined.

Lemma BatchListJobs_accepts_non_arrays_witness :
  is_array (@Jnull Z) = false /\
  BatchListJobs (hdr := Sample.env) [] "" = Ok [] /\
  MetadataListDatasets_response (hdr := Sample.env) Jnull
  = Throw (TypeMismatch (hdr := Sample.env) "ListDatasets" "array"
             Jnull).
Proof.
  apply (BatchListJobs_accepts_non_arrays (hdr := Sample.env)
           [] "" (j := Jnull)).
  - reflexivity.
  - left. reflexivity.
Defined.

(** ** Requests *)

Lemma values_at_emplace_other (k k' v : string) (m : Params) :
  String.eqb k k' = false -> values_at k' (emplace k v m) = values_at k' m.
Proof.
  intros Hk. unfold values_at.
  induction m as [|[k0 v0] m IH]; simpl.
  - rewrite Hk. reflexivity.
  - destruct (String.ltb k k0); simpl.
    + rewrite Hk. reflexivity.
    + destruct (String.eqb k0 k'); simpl; rewrite IH; reflexivity.
Qed.

Lemma values_at_emplace_fresh (k v : string) (m : Params) :
  values_at k m = [] -> values_at k (emplace k v m) = [v].
Proof.
  unfold values_at.
  induction m as [|[k0 v0] m IH]; simpl; intros Hf.
  - rewrite String.eqb_refl. reflexivity.
  - destruct (String.eqb k0 k) eqn:Hk0; [discriminate|].
    destruct (String.ltb k k0); simpl.
    + rewrite String.eqb_refl, Hk0. simpl. rewrite Hf. reflexivity.
    + rewrite Hk0. apply IH, Hf.
Qed.

Lemma join_step_nonempty (acc str : string) :
  str_empty acc = false -> str_empty (join_step acc str) = false.
Proof. unfold join_step. destruct acc; [discriminate|]. reflexivity. Qed.

Lemma append_assoc (a b c : string) :
  ((a ++ b) ++ c)%string = (a ++ b ++ c)%string.
Proof. induction a as [|ch a IH]; simpl; [|rewrite IH]; reflexivity. Qed.

Lemma accumulate_from_nonempty (strings : list string) :
  forall acc, str_empty acc = false ->
              accumulate join_step strings acc = comma_separated (acc :: strings).
Proof.
  unfold accumulate, comma_separated.
  induction strings as [|x rest IH]; intros acc Hacc.
  - reflexivity.
  - cbn [fold_left]. rewrite (IH _ (@join_step_nonempty acc x Hacc)).
    unfold join_step. rewrite Hacc.
    destruct rest as [|y rest]; cbn [String.concat].
    + reflexivity.
    + rewrite !append_assoc. reflexivity.
Qed.

(** The lambda of lines 53-55 tells the first element by the accumulator
    being empty: empty strings at the front leave no trace. *)
Lemma accumulate_join (strings : list string) :
  accumulate join_step strings EmptyString
  = comma_separated (skip_empty strings).
Proof.
  induction strings as [|x rest IH].
  - reflexivity.
  - destruct x as [|c x].
    + exact IH.
    + change (accumulate join_step rest (join_step EmptyString (String c x))
              = comma_separated (String c x :: rest)).
      apply accumulate_from_nonempty. reflexivity.
Qed.

Lemma values_at_SetIfPositive (params : Params) (key : string) (value : N) :
  values_at key params = [] ->
  values_at key (SetIfPositive params key value) = optional_number value.
Proof.
  intros Hf. unfold SetIfPositive, optional_number.
  destruct value; simpl; [exact Hf | apply values_at_emplace_fresh, Hf].
Qed.

Lemma values_at_SetIfNotEmpty (params : Params) (key value : string) :
  values_at key params = [] ->
  values_at key (SetIfNotEmpty params key value) = optional_string value.
Proof.
  intros Hf. unfold SetIfNotEmpty, optional_string.
  destruct value; simpl; [exact Hf | apply values_at_emplace_fresh, Hf].
Qed.

Lemma values_at_SetIfNotEmpty_strings (params : Params) (key : string)
    (strings : list string) :
  values_at key params = [] ->
  values_at key (SetIfNotEmpty_strings params key strings)
  = optional_list strings.
Proof.
  intros Hf. unfold SetIfNotEmpty_strings, optional_list.
  destruct strings as [|x rest]; [exact Hf|].
  rewrite accumulate_join. apply values_at_emplace_fresh, Hf.
Qed.

Lemma values_at_SetIfPositive_other (params : Params) (key key' : string)
    (value : N) :
  String.eqb key key' = false ->
  values_at key' (SetIfPositive params key value) = values_at key' params.
Proof.
  intros Hk. unfold SetIfPositive.
  destruct (0 <? value)%N; [apply values_at_emplace_other, Hk | reflexivity].
Qed.

Lemma values_at_SetIfNotEmpty_other (params : Params) (key key' value : string) :
  String.eqb key key' = false ->
  values_at key' (SetIfNotEmpty params key value) = values_at key' params.
Proof.
  intros Hk. unfold SetIfNotEmpty.
  destruct (negb (str_empty value));
    [apply values_at_emplace_other, Hk | reflexivity].
Qed.

Lemma values_at_SetIfNotEmpty_strings_other (params : Params)
    (key key' : string) (strings : list string) :
  String.eqb key key' = false ->
  values_at key' (SetIfNotEmpty_strings params key strings)
  = values_at key' params.
Proof.
  intros Hk. unfold SetIfNotEmpty_strings.
  destruct strings; [reflexivity | apply values_at_emplace_other, Hk].
Qed.

(** Helpers for other keys leave the values under a key as they are. *)
Ltac other_keys :=
  repeat first
    [ rewrite values_at_SetIfPositive_other by reflexivity
    | rewrite values_at_SetIfNotEmpty_other by reflexivity
    | rewrite values_at_SetIfNotEmpty_strings_other by reflexivity
    | rewrite values_at_emplace_other by reflexivity ].

(** The value sent under the key of the outermost helper that sets it, the
    key being absent from what lies below. *)
Ltac sent :=
  other_keys;
  first [ reflexivity
        | apply values_at_SetIfPositive; other_keys; reflexivity
        | apply values_at_SetIfNotEmpty; other_keys; reflexivity
        | apply values_at_SetIfNotEmpty_strings; other_keys; reflexivity ].

Section Requests.

Context {hdr : Headers}.

Lemma accumulate_states (states : list BatchState) :
  forall acc,
    accumulate join_state_step states acc
    = accumulate join_step (map ToString states) acc.
Proof.
  unfold accumulate.
  induction states as [|x rest IH]; intros acc; [reflexivity|].
  cbn [fold_left map]. rewrite <- IH. reflexivity.
Qed.

Lemma values_at_SetIfNotEmpty_states (params : Params) (key : string)
    (states : list BatchState) :
  values_at key params = [] ->
  values_at key (SetIfNotEmpty_states params key states)
  = optional_list (map ToString states).
Proof.
  intros Hf. unfold SetIfNotEmpty_states, optional_list.
  destruct states as [|x rest]; [exact Hf|].
  rewrite accumulate_states, accumulate_join.
  apply values_at_emplace_fresh, Hf.
Qed.

Lemma values_at_SetIfNotEmpty_states_other (params : Params)
    (key key' : string) (states : list BatchState) :
  String.eqb key key' = false ->
  values_at key' (SetIfNotEmpty_states params key states)
  = values_at key' params.
Proof.
  intros Hk. unfold SetIfNotEmpty_states.
  destruct states; [reflexivity | apply values_at_emplace_other, Hk].
Qed.

(** C9, as the code has it.  The parameters that go through
    [SetIfPositive] are left out when 0 and sent in decimal otherwise; those
    that go through [SetIfNotEmpty] are left out when empty and sent
    otherwise, a vector as one value: its elements from the first non-empty
    one on, separated by commas, which is the whole vector when its first
    element is not empty.  [SymbologyResolve] puts [start_date], [end_date]
    and [default_value] in the initial set: they are sent even when empty. *)
Theorem optional_parameters_sent :
  (forall dataset schema symbols start end_ split_duration split_size
          packaging delivery stype_in stype_out limit,
      let params := BatchSubmitJob_params dataset schema symbols start end_
                      split_duration split_size packaging delivery stype_in
                      stype_out limit in
      values_at "split_size" params = optional_number split_size /\
      values_at "limit" params = optional_number limit /\
      values_at "symbols" params = optional_list symbols) /\
  (forall states since,
      let params := BatchListJobs_params states since in
      values_at "states" params = optional_list (map ToString states) /\
      values_at "since" params = optional_string since) /\
  (forall start_date end_date,
      let params := MetadataListDatasets_params start_date end_date in
      values_at "start_date" params = optional_string start_date /\
      values_at "end_date" params = optional_string end_date) /\
  (forall dataset start_date end_date,
      let params := MetadataListSchemas_params dataset start_date end_date in
      values_at "start_date" params = optional_string start_date /\
      values_at "end_date" params = optional_string end_date) /\
  (forall dataset start end_ symbols schema stype_in limit,
      let params := MetadataGetBillableSize_params dataset start end_ symbols
                      schema stype_in limit in
      values_at "start" params = optional_string start /\
      values_at "end" params = optional_string end_ /\
      values_at "limit" params = optional_number limit /\
      values_at "symbols" params = optional_list symbols) /\
  (forall dataset start end_ mode symbols schema stype_in limit,
      let params := MetadataGetCost_params dataset start end_ mode symbols
                      schema stype_in limit in
      values_at "start" params = optional_string start /\
      values_at "end" params = optional_string end_ /\
      values_at "symbols" params = optional_list symbols /\
      values_at "limit" params = optional_number limit) /\
  (forall dataset symbols stype_in stype_out start_date end_date
          default_value,
      let params := SymbologyResolve_params dataset symbols stype_in
                      stype_out start_date end_date default_value in
      values_at "symbols" params = optional_list symbols /\
      values_at "start_date" params = [start_date] /\
      values_at "end_date" params = [end_date] /\
      values_at "default_value" params = [default_value]) /\
  (forall dataset symbols schema start end_ stype_in stype_out limit,
      let params := TimeseriesStream_params dataset symbols schema start end_
                      stype_in stype_out limit in
      values_at "symbols" params = optional_list symbols /\
      values_at "limit" params = optional_number limit) /\
  (forall n, optional_number n = [] <-> n = 0%N) /\
  (forall s, optional_string s = [] <-> s = EmptyString) /\
  (forall strings, optional_list strings = [] <-> strings = []) /\
  (forall first rest,
      first <> EmptyString ->
      optional_list (first :: rest) = [comma_separated (first :: rest)]).
Proof.
  repeat match goal with |- _ /\ _ => split end; intros;
    repeat match goal with |- _ /\ _ => split end;
    try (subst params;
         unfold BatchSubmitJob_params, BatchListJobs_params,
           MetadataListDatasets_params, MetadataListSchemas_params,
           MetadataGetBillableSize_params, MetadataGetCost_params,
           SymbologyResolve_params, TimeseriesStream_params;
         cbv zeta;
         first [ sent
               | other_keys; apply values_at_SetIfNotEmpty_states;
                 reflexivity
               | apply values_at_SetIfNotEmpty;
                 rewrite values_at_SetIfNotEmpty_states_other
                   by reflexivity;
                 reflexivity ]).
  - unfold optional_number. destruct n; simpl; split; congruence.
  - unfold optional_string. destruct s; simpl; split; congruence.
  - unfold optional_list. destruct strings; simpl; split; congruence.
  - unfold optional_list. destruct first; simpl; [congruence | reflexivity].
Qed.

End Requests.

(** C9 as stated fails twice: a vector that starts with an empty string is
    not sent as the comma-separated list of its elements, and the empty
    [default_value] of [SymbologyResolve] is sent. *)
Lemma optional_parameters_counterexample :
  values_at "symbols" (SetIfNotEmpty_strings [] "symbols" [""; "ESH1"]%string)
  <> [comma_separated [""; "ESH1"]%string] /\
  values_at "default_value"
    (SymbologyResolve_params (hdr := Sample.env) "GLBX.MDP3"
       ["ESH1"%string] "native"%string "product_id"%string "2022-06-06"
       "2022-06-10" "")
  <> [].
Proof. split; vm_compute; discriminate. Qed.

(** ** The builder *)

Section Builder.

Context {hdr : Headers}.

Lemma configure_fields (env_key : option string) (calls : list BuilderCall) :
  forall b b',
    configure env_key calls b = Ok b' ->
    builder_key_ b' = key_set env_key calls (builder_key_ b) /\
    builder_gateway_ b' = gateway_set calls (builder_gateway_ b).
Proof.
  induction calls as [|c rest IH]; simpl; intros b b' Hc.
  - inversion Hc. auto.
  - destruct c as [k| |g]; simpl in Hc.
    + apply IH in Hc. exact Hc.
    + destruct env_key as [k|]; simpl in Hc; [|discriminate].
      apply IH in Hc. exact Hc.
    + apply IH in Hc. exact Hc.
Qed.

(** C10.  After any sequence of calls of [key], [keyFromEnv] and [gateway]
    on a fresh builder, [Build] throws exactly when the key in effect (the
    last one set, if any) is empty; otherwise it returns a [Historical] whose
    [key()] is that key and whose gateway is the one last set, [Nearest] when
    none was.  [keyFromEnv] throws exactly when the variable is unset. *)
Theorem Build_after_calls (env_key : option string)
    (calls : list BuilderCall) (b : HistoricalBuilder) :
  configure env_key calls HistoricalBuilder_new = Ok b ->
  let k := key_set env_key calls EmptyString in
  let g := gateway_set calls Nearest in
  (Build b = Throw (logic_error "key is unset") <-> k = EmptyString) /\
  (k <> EmptyString ->
   exists h, Build b = Ok h /\ key h = k /\ gateway h = UrlFromGateway g) /\
  (forall b0, (exists e, keyFromEnv b0 env_key = Throw e) <-> env_key = None).
Proof.
  intros Hc k g.
  destruct (configure_fields _ _ _ Hc) as [Hk Hg].
  change (builder_key_ b = k) in Hk. change (builder_gateway_ b = g) in Hg.
  unfold Build. rewrite Hk, Hg.
  repeat split.
  - destruct k; simpl; [reflexivity | discriminate].
  - intros ->. reflexivity.
  - intros Hne. destruct k as [|c k']; [congruence|].
    simpl. eexists. repeat split.
  - intros [e He]. destruct env_key; [discriminate | reflexivity].
  - intros ->. simpl. eauto.
Qed.

End Builder.

Lemma Build_after_calls_witness :
  configure (Some "db-env-key"%string) Sample.calls HistoricalBuilder_new
  = Ok Sample.built /\
  exists h,
    Build Sample.built = Ok h /\
    key h = "db-env-key"%string /\
    gateway h = "https://bo1.databento.com"%string.
Proof.
  split; [reflexivity|].
  refine (proj1 (proj2 (Build_after_calls (hdr := Sample.env)
                          (Some "db-env-key"%string) Sample.calls
                          (b := Sample.built) eq_refl)) _).
  discriminate.
Defined.

(** ** TimeseriesStream *)

Module StreamProps.

Import Stream StreamSample.

(** *** The parser *)

Lemma slice_frame_frame (max_size hsize : nat) (length_of : bytes -> nat)
    (buf frame rest : bytes) :
  slice_frame max_size hsize length_of buf = Frame frame rest ->
  buf = frame ++ rest /\ 0 < length frame.
Proof.
  unfold slice_frame.
  destruct (length buf <? hsize); [discriminate|].
  set (n := length_of (firstn hsize buf)).
  destruct (n =? 0) eqn:Hn0; [discriminate|].
  destruct (max_size <? n); [discriminate|]. simpl.
  destruct (length buf <? n) eqn:Hlen; [discriminate|].
  intros Hf. inversion Hf; subst. split.
  - symmetry. apply firstn_skipn.
  - apply Nat.eqb_neq in Hn0. apply Nat.ltb_ge in Hlen.
    rewrite length_firstn. lia.
Qed.

Lemma ParseFrame_ready (max_size hsize : nat) (length_of : bytes -> nat)
    (p p' : DbzParser) (frame : bytes) :
  ParseFrame max_size hsize length_of p = Ready frame p' ->
  buffer p = frame ++ buffer p' /\ finished p' = finished p /\
  0 < length frame.
Proof.
  unfold ParseFrame.
  destruct (slice_frame max_size hsize length_of (buffer p)) eqn:Hs.
  - destruct (finished p); [destruct (buffer p)|]; discriminate.
  - discriminate.
  - intros Hr. inversion Hr; subst. simpl.
    apply slice_frame_frame in Hs. tauto.
Qed.

Lemma ParseFrame_blocked (max_size hsize : nat) (length_of : bytes -> nat)
    (p : DbzParser) :
  ParseFrame max_size hsize length_of p = Blocked -> finished p = false.
Proof.
  unfold ParseFrame.
  destruct (slice_frame max_size hsize length_of (buffer p)); try discriminate.
  destruct (finished p); [destruct (buffer p); discriminate | reflexivity].
Qed.

Lemma firstn_app_le {A : Type} (l1 l2 : list A) (n : nat) :
  n <= length l1 -> firstn n (l1 ++ l2) = firstn n l1.
Proof.
  intros Hn. rewrite firstn_app.
  replace (n - length l1) with 0 by lia. simpl. apply app_nil_r.
Qed.

(** On a buffer that starts a valid frame the slicer never rejects, and it
    hands out that frame once enough of it is there. *)
Lemma slice_frame_valid (max_size hsize : nat) (length_of : bytes -> nat)
    (frame tail buf rest : bytes) :
  valid_frame max_size hsize length_of frame ->
  buf ++ rest = frame ++ tail ->
  match slice_frame max_size hsize length_of buf with
  | Frame frame' _ => frame' = frame
  | NeedMore => length buf < length frame
  | Malformed => False
  end.
Proof.
  intros (Hh & Hlen & Hpos & Hmax) Heq. unfold slice_frame.
  destruct (length buf <? hsize) eqn:Hbh.
  - apply Nat.ltb_lt in Hbh. lia.
  - apply Nat.ltb_ge in Hbh.
    assert (Hhead : firstn hsize buf = firstn hsize frame).
    { rewrite <- (firstn_app_le buf rest Hbh).
      rewrite Heq. apply firstn_app_le. exact Hh. }
    rewrite Hhead, Hlen.
    destruct (length frame =? 0) eqn:Hz; [apply Nat.eqb_eq in Hz; lia|].
    destruct (max_size <? length frame) eqn:Hm;
      [apply Nat.ltb_lt in Hm; lia|].
    simpl. destruct (length buf <? length frame) eqn:Hbf.
    + apply Nat.ltb_lt in Hbf. exact Hbf.
    + apply Nat.ltb_ge in Hbf.
      rewrite <- (firstn_app_le buf rest Hbf).
      rewrite Heq, firstn_app_le by lia. apply firstn_all.
Qed.

Lemma ParseFrame_valid (max_size hsize : nat) (length_of : bytes -> nat)
    (frame tail rest : bytes) (p : DbzParser) :
  valid_frame max_size hsize length_of frame ->
  buffer p ++ rest = frame ++ tail ->
  (finished p = true -> rest = []) ->
  match ParseFrame max_size hsize length_of p with
  | Ready frame' _ => frame' = frame
  | Blocked => True
  | Fails _ => False
  end.
Proof.
  intros Hv Heq Hfin. unfold ParseFrame.
  pose proof (@slice_frame_valid max_size hsize length_of frame tail
                (buffer p) rest Hv Heq) as Hs.
  destruct (slice_frame max_size hsize length_of (buffer p)).
  - destruct (finished p); [|exact I].
    rewrite (Hfin eq_refl), app_nil_r in Heq.
    rewrite Heq, length_app in Hs. lia.
  - exact Hs.
  - exact Hs.
Qed.

Lemma nth_error_split_at {A : Type} (l : list A) (i : nat) :
  i < length l ->
  exists x, nth_error l i = Some x /\
            l = firstn i l ++ x :: skipn (S i) l /\
            firstn (S i) l = firstn i l ++ [x].
Proof.
  revert i. induction l as [|a l IH]; simpl; intros i Hi; [lia|].
  destruct i as [|i].
  - exists a. repeat split.
  - destruct (IH i) as (x & Hn & Hl & Hf); [lia|].
    exists x. simpl. split; [exact Hn|]. split.
    + f_equal. exact Hl.
    + f_equal. exact Hf.
Qed.

(** *** The log *)

Lemma occurrences_app (e : Event) (l l' : list Event) :
  occurrences e (l ++ l') = occurrences e l + occurrences e l'.
Proof. unfold occurrences. rewrite filter_app, length_app. reflexivity. Qed.

Lemma occurrences_cons (e x : Event) (l : list Event) :
  occurrences e (x :: l)
  = (if event_eqb e x then 1 else 0) + occurrences e l.
Proof. unfold occurrences. simpl. destruct (event_eqb e x); reflexivity. Qed.

Lemma occurrences_nil (e : Event) : occurrences e [] = 0.
Proof. reflexivity. Qed.

Lemma calls_app (l l' : list Event) : calls (l ++ l') = calls l ++ calls l'.
Proof. apply filter_app. Qed.

Lemma parsed_app (l l' : list Event) : parsed (l ++ l') = parsed l ++ parsed l'.
Proof. apply flat_map_app. Qed.

Lemma passed_app (l l' : list Event) : passed (l ++ l') = passed l ++ passed l'.
Proof. apply flat_map_app. Qed.

Lemma occurrences_In (e : Event) (l : list Event) :
  0 < occurrences e l -> exists e', In e' l /\ event_eqb e e' = true.
Proof.
  unfold occurrences. induction l as [|x l IH]; simpl; [lia|].
  destruct (event_eqb e x) eqn:He; simpl; intros Hn.
  - exists x. auto.
  - destruct (IH Hn) as [e' [Hin He']]. exists e'. auto.
Qed.

Lemma occurrences_zero (e : Event) (l : list Event) :
  occurrences e l = 0 -> event_eqb e e = true -> ~ In e l.
Proof.
  unfold occurrences. induction l as [|x l IH]; simpl; intros Hn He Hin.
  - exact Hin.
  - destruct Hin as [Hx|Hin].
    + subst x. rewrite He in Hn. discriminate.
    + destruct (event_eqb e x); [discriminate | exact (IH Hn He Hin)].
Qed.

Lemma occurrences_pos (e : Event) (l : list Event) :
  0 < occurrences e l -> event_eqb e e = true -> In e l.
Proof.
  intros Hn He. destruct (occurrences_In _ _ Hn) as [e' [Hin He']].
  replace e with e'; [exact Hin|].
  clear Hn Hin.
  destruct e as [| | |h| | | | | | | |]; simpl in He; try discriminate;
    destruct e' as [| | |h'| | | | | | | |]; simpl in He';
    try discriminate; try reflexivity;
    try (destruct h; discriminate).
  destruct h, h'; try discriminate; reflexivity.
Qed.

(** The cases of a step, with the equations of the tests taken. *)
Ltac step_cases H :=
  unfold step_of, producer_step, consumer_step, throw in H;
  repeat match type of H with
         | context [match ?x with _ => _ end] =>
             destruct x eqn:?; try discriminate
         end;
  inversion H; subst; clear H; simpl in *.

Section Invariants.

Variable W : Wire.
Variable cb : Callbacks.
Variable T : Transport.

Local Abbreviation step := (step W cb T).
Local Abbreviation reachable := (reachable W cb T).
Local Abbreviation data := (data W T).

Lemma sync_init : sync (init T).
Proof.
  constructor; simpl; try reflexivity; try discriminate; intros; discriminate.
Qed.

Lemma sync_step (s s' : State) : sync s -> step s s' -> sync s'.
Proof.
  intros [Hfin Hjoin Hraised Hret Hunc Hterm Hspawn Hend Hjn Hfail Hended
            Hterminate] [t Ht].
  destruct t; step_cases Ht;
    repeat match goal with
           | H : ParseMetadata _ _ = Ready _ _ |- _ =>
               apply ParseFrame_ready in H; destruct H as (? & ? & ?)
           | H : ParseRecord _ _ = Ready _ _ |- _ =>
               apply ParseFrame_ready in H; destruct H as (? & ? & ?)
           end;
    constructor; simpl;
    rewrite ?occurrences_app, ?occurrences_cons, ?occurrences_nil; simpl;
    try congruence; try lia; try discriminate;
    try (intros; discriminate);
    try (intros Hc; destruct (Hret Hc); discriminate);
    try (intros e' He'; inversion He'; auto; fail);
    try (intros e' He'; split; [reflexivity | exact (proj2 (Hunc _ He'))]);
    eauto.
Qed.

Lemma reachable_sync (s : State) : reachable s -> sync s.
Proof.
  induction 1 as [|s s' _ IH Hs]; [apply sync_init | exact (sync_step IH Hs)].
Qed.

Lemma data_init : data (init T).
Proof. constructor; simpl; auto. Qed.

Lemma data_step (s s' : State) : data s -> step s s' -> data s'.
Proof.
  intros [Hbytes Hchunks Hview] [t Ht].
  destruct t; step_cases Ht;
    repeat match goal with
           | H : ParseMetadata _ _ = Ready _ _ |- _ =>
               apply ParseFrame_ready in H; destruct H as (? & ? & ?)
           | H : ParseRecord _ _ = Ready _ _ |- _ =>
               apply ParseFrame_ready in H; destruct H as (? & ? & ?)
           | H : (_ <? _) = true |- _ => apply Nat.ltb_lt in H
           | H : (_ <? _) = false |- _ => apply Nat.ltb_ge in H
           | H : exists _, _ |- _ => destruct H
           | H : _ /\ _ |- _ => destruct H
           end; subst;
    constructor; simpl;
    rewrite ?calls_app, ?parsed_app, ?passed_app, ?concat_app; simpl;
    rewrite ?app_nil_r;
    try assumption; try (eexists; eassumption);
    try (rewrite app_assoc, Hbytes; reflexivity);
    try (rewrite <- app_assoc; exact Hchunks);
    try match goal with
        | Hb : buffer (dbz_parser s) = _ |- _ =>
            rewrite <- Hbytes, Hb, app_assoc; reflexivity
        end;
    try match goal with
        | H : parsed _ = _ |- _ => rewrite H
        end;
    try match goal with
        | H : calls _ = _ |- _ => rewrite H
        end;
    simpl;
    try match goal with
        | |- context [map EvRecord ?l ++ [EvRecord ?r]] =>
            change [EvRecord r] with (map EvRecord [r]);
            rewrite <- map_app
        end;
    rewrite ?length_app; simpl;
    first [ solve [auto]
          | solve [repeat eexists; lia]
          | solve [right; repeat eexists; lia]
          | idtac ].
  - right. exists metadata, []. split; [reflexivity | simpl; lia].
  - right. exists x, (seen ++ [r]). split; [reflexivity|].
    rewrite length_app. simpl. lia.
Qed.

Lemma reachable_data (s : State) : reachable s -> data s.
Proof.
  induction 1 as [|s s' _ IH Hs]; [apply data_init | exact (data_step IH Hs)].
Qed.

(** *** Runs end *)

Lemma fuel_step (s s' : State) : step s s' -> fuel s' < fuel s.
Proof.
  intros [t Ht]. unfold fuel, available.
  destruct t; step_cases Ht;
    repeat match goal with
           | H : ParseMetadata _ _ = Ready _ _ |- _ =>
               apply ParseFrame_ready in H; destruct H as (? & ? & ?)
           | H : ParseRecord _ _ = Ready _ _ |- _ =>
               apply ParseFrame_ready in H; destruct H as (? & ? & ?)
           | H : buffer (dbz_parser _) = _ |- _ => rewrite H
           end;
    rewrite ?length_app; simpl;
    first [ lia | destruct (consumer s); simpl; lia ].
Qed.

Lemma slot_cases (s : State) (t : Thread) :
  step s (slot W cb T s t) \/ (final W cb T s = true /\ slot W cb T s t = s).
Proof.
  unfold slot, final.
  destruct (step_of W cb T t s) as [s1|] eqn:H1.
  - left. exists t. exact H1.
  - destruct (step_of W cb T (other t) s) as [s2|] eqn:H2.
    + left. exists (other t). exact H2.
    + right. destruct t; simpl in H1, H2; rewrite H1, H2; auto.
Qed.

Lemma run_reachable (schedule : list Thread) :
  forall s, reachable s -> reachable (run W cb T schedule s).
Proof.
  induction schedule as [|t rest IH]; simpl; intros s Hs; [exact Hs|].
  apply IH. destruct (slot_cases s t) as [Hstep|[_ Heq]].
  - exact (reachable_step Hs Hstep).
  - rewrite Heq. exact Hs.
Qed.

(** Every interleaving is the run of a schedule. *)
Lemma reachable_run (s : State) :
  reachable s -> exists schedule, run W cb T schedule (init T) = s.
Proof.
  induction 1 as [|s s' _ [schedule IH] [t Ht]].
  - exists []. reflexivity.
  - exists (schedule ++ [t]). unfold run in *. rewrite fold_left_app, IH.
    simpl. unfold slot. rewrite Ht. reflexivity.
Qed.

Lemma final_no_step (s s' : State) : final W cb T s = true -> ~ step s s'.
Proof.
  unfold final. intros Hf [t Ht].
  destruct t; simpl in Ht; rewrite Ht in Hf;
    [|destruct (producer_step T s)]; discriminate.
Qed.

Lemma run_of_final (schedule : list Thread) (s : State) :
  final W cb T s = true -> run W cb T schedule s = s.
Proof.
  intros Hf. induction schedule as [|t rest IH]; simpl; [reflexivity|].
  destruct (slot_cases s t) as [Hstep|[_ Heq]].
  - destruct (@final_no_step s _ Hf Hstep).
  - rewrite Heq. exact IH.
Qed.

(** A schedule at least as long as the fuel of a state runs it to a state
    in which no thread has a step. *)
Lemma run_final (schedule : list Thread) :
  forall s, fuel s <= length schedule ->
            final W cb T (run W cb T schedule s) = true.
Proof.
  induction schedule as [|t rest IH]; simpl; intros s Hlen.
  - destruct (final W cb T s) eqn:Hf; [reflexivity|].
    unfold final in Hf.
    destruct (producer_step T s) as [s1|] eqn:H1.
    + assert (Hst : step s s1) by (exists producer_thread; exact H1).
      apply fuel_step in Hst. lia.
    + destruct (consumer_step W cb s) as [s2|] eqn:H2; [|discriminate].
      assert (Hst : step s s2) by (exists consumer_thread; exact H2).
      apply fuel_step in Hst. lia.
  - destruct (slot_cases s t) as [Hstep|[Hf Heq]].
    + apply IH. apply fuel_step in Hstep. lia.
    + rewrite Heq, (@run_of_final rest s Hf). exact Hf.
Qed.

(** No deadlock: when no thread has a step, the call has ended. *)
Lemma final_outcome (s : State) :
  reachable s -> final W cb T s = true -> outcome s <> None.
Proof.
  intros Hr Hf. apply reachable_sync in Hr. destruct Hr as [Hfin _ _ _ Hunc ].
  unfold final, producer_step, consumer_step, outcome in *.
  destruct (terminated s) eqn:Hterm; [discriminate|].
  destruct (producer s) as [[|c rest]|rest| | |e] eqn:Hp;
    try discriminate;
    try (destruct (ending T); discriminate);
    try (destruct (should_continue s); discriminate);
    try (destruct (Hunc e eq_refl); discriminate).
  simpl in Hfin.
  destruct (consumer s) as [|m|i K seen|i K seen r| | |e|e];
    try discriminate.
  - destruct (ParseMetadata W (dbz_parser s)) eqn:Hparse; try discriminate.
    apply ParseFrame_blocked in Hparse. congruence.
  - destruct (metadata_callback cb m); discriminate.
  - destruct (i <? K); [|discriminate].
    destruct (ParseRecord W (dbz_parser s)) eqn:Hparse; try discriminate.
    apply ParseFrame_blocked in Hparse. congruence.
  - destruct (callback cb seen r); discriminate.
  - destruct (joinable s); discriminate.
Qed.

End Invariants.

(** *** Runs on a well-formed stream with obliging callbacks *)

Section Liveness.

Variable W : Wire.
Variable cb : Callbacks.
Variable T : Transport.
Variable m : Metadata.
Variable records : list Record_.
Variable extra : bytes.

Hypothesis Hwf : well_formed W T m records extra.
Hypothesis Hend : ending T = Complete.
Hypothesis Hobl : obliging cb m records.

Local Abbreviation live := (live T m records).

Lemma live_init : live (init T).
Proof. constructor; simpl; auto. Qed.

(** The parser's answer when the body continues with a valid frame. *)
Lemma parse_next (s : State) (hsize : nat) (length_of : bytes -> nat)
    (frame tail : bytes) :
  data W T s -> sync s -> live s ->
  concat (chunks T) = concat (parsed (log s)) ++ frame ++ tail ->
  valid_frame (max_frame_size W) hsize length_of frame ->
  match ParseFrame (max_frame_size W) hsize length_of (dbz_parser s) with
  | Ready frame' _ => frame' = frame
  | Blocked => True
  | Fails _ => False
  end.
Proof.
  intros Hd Hs Hl Hbody Hv.
  assert (Hrest : exists rest, passed (log s) ++ rest = chunks T /\
                               (finished (dbz_parser s) = true -> rest = [])).
  { pose proof (data_chunks Hd) as Hc. pose proof (live_producer Hl) as Hp.
    pose proof (sync_finished Hs) as Hf.
    destruct (producer s); simpl in Hf.
    - exists rest. split; [exact Hc | congruence].
    - exists rest. split; [exact Hc | congruence].
    - exists []. rewrite app_nil_r. auto.
    - exists []. rewrite app_nil_r. auto.
    - destruct Hp. }
  destruct Hrest as (rest & Hrest & Hfin).
  apply (@ParseFrame_valid _ _ _ frame tail (concat rest)); [exact Hv| |].
  - apply (app_inv_head (concat (parsed (log s)))).
    rewrite app_assoc, (data_bytes Hd), <- concat_app.
    etransitivity; [|exact Hbody]. f_equal. exact Hrest.
  - intros Hf. rewrite (Hfin Hf). reflexivity.
Qed.

Lemma record_at (i : nat) :
  i < length records ->
  exists r, nth_error records i = Some r /\
            firstn (S i) records = firstn i records ++ [r] /\
            valid_frame (max_frame_size W) (record_header_size W)
              (record_length W) r /\
            concat (chunks T)
            = concat (m :: firstn i records) ++ r
              ++ (concat (skipn (S i) records) ++ extra).
Proof.
  intros Hi. destruct (nth_error_split_at records Hi) as (r & Hn & Hsplit & Hf).
  exists r. split; [exact Hn|]. split; [exact Hf|]. split.
  - apply (proj1 (Forall_forall _ _) (wf_records Hwf)).
    exact (nth_error_In _ _ Hn).
  - rewrite (wf_body Hwf).
    assert (Hc : concat records
                 = concat (firstn i records) ++ r
                   ++ concat (skipn (S i) records)).
    { rewrite Hsplit at 1. rewrite concat_app. reflexivity. }
    rewrite Hc. simpl. rewrite <- !app_assoc. reflexivity.
Qed.

Lemma live_step (s s' : State) :
  data W T s -> sync s -> live s -> step W cb T s s' -> live s'.
Proof.
  intros Hd Hs Hl [t Ht].
  pose proof (@parse_next s (metadata_header_size W) (metadata_length W) m
                (concat records ++ extra) Hd Hs Hl) as Hmeta.
  pose proof (fun i r => @parse_next s (record_header_size W)
                           (record_length W) r
                           (concat (skipn (S i) records) ++ extra) Hd Hs Hl)
    as Hrec.
  destruct Hl as [Hrun Hflag Hprod Hcons].
  destruct Hd as [Hbytes Hchunks Hview].
  destruct Hobl as [Hmcb Hrcb].
  destruct t; simpl in Ht.
  - (* the producer *)
    step_cases Ht; try congruence;
      constructor; simpl; rewrite ?parsed_app, ?passed_app; simpl;
      rewrite ?app_nil_r; auto.
    rewrite <- Hchunks. symmetry. apply app_nil_r.
  - (* the calling thread *)
    unfold consumer_step in Ht. rewrite Hrun in Ht.
    destruct (consumer s) as [|md|i K seen|i K seen r| | |e|e] eqn:Hc;
      simpl in Hview; try discriminate; try contradiction.
    + (* ParseMetadata *)
      destruct Hview as [Hparsed _]. rewrite Hparsed in Hmeta.
      specialize (Hmeta (wf_body Hwf) (wf_metadata Hwf)).
      unfold ParseMetadata in Ht.
      destruct (ParseFrame (max_frame_size W) (metadata_header_size W)
                  (metadata_length W) (dbz_parser s));
        try discriminate; try contradiction.
      inversion Ht; subst.
      constructor; simpl; rewrite ?parsed_app, ?passed_app; simpl;
        rewrite ?app_nil_r; auto.
    + (* metadata_callback *)
      subst md. rewrite Hmcb in Ht. inversion Ht; subst.
      destruct Hview as [Hparsed _].
      constructor; simpl; rewrite ?parsed_app, ?passed_app; simpl;
        rewrite ?app_nil_r; auto.
      repeat split; [exact Hparsed | exact (wf_count Hwf)].
    + (* the head of the loop *)
      destruct Hcons as (Hparsed & Hseen & HK).
      destruct (i <? K) eqn:HiK.
      * apply Nat.ltb_lt in HiK. rewrite HK in HiK.
        destruct (record_at HiK) as (r & Hn & Hf & Hv & Hbody).
        specialize (Hrec i r). rewrite Hparsed, Hseen in Hrec.
        specialize (Hrec Hbody Hv).
        unfold ParseRecord in Ht.
        destruct (ParseFrame (max_frame_size W) (record_header_size W)
                    (record_length W) (dbz_parser s));
          try discriminate; try contradiction.
        inversion Ht; subst.
        constructor; simpl; rewrite ?parsed_app, ?passed_app; simpl;
          rewrite ?app_nil_r; auto.
        rewrite Hparsed. simpl. auto.
      * apply Nat.ltb_ge in HiK. inversion Ht; subst.
        constructor; simpl; auto.
        rewrite Hparsed. f_equal. apply firstn_all2. exact HiK.
    + (* callback *)
      destruct Hcons as (Hparsed & Hseen & Hn & HK).
      rewrite Hseen, (Hrcb _ _ Hn) in Ht. inversion Ht; subst.
      assert (Hi : i < length records)
        by (apply nth_error_Some; congruence).
      destruct (record_at Hi) as (r' & Hn' & Hf & _).
      assert (r' = r) by congruence. subst r'.
      constructor; simpl; rewrite ?parsed_app, ?passed_app; simpl;
        rewrite ?app_nil_r; auto.
    + (* join *)
      destruct (producer s) eqn:Hp; try discriminate.
      inversion Ht; subst.
      constructor; simpl; rewrite ?parsed_app, ?passed_app; simpl;
        rewrite ?app_nil_r; auto.
Qed.

Lemma reachable_live (s : State) : reachable W cb T s -> live s.
Proof.
  induction 1 as [|s s' Hr IH Hstep]; [apply live_init|].
  exact (live_step (reachable_data Hr) (reachable_sync Hr) IH Hstep).
Qed.

End Liveness.

(** *** The claims about TimeseriesStream

    A schedule gives the state it leads to; its prefixes give the states on
    the way, and every interleaving is the run of a schedule
    ([reachable_run]).  A statement about the runs of all schedules is a
    statement about every state of every interleaving. *)

Lemma In_occurrences (e : Event) (l : list Event) :
  In e l -> event_eqb e e = true -> 0 < occurrences e l.
Proof.
  unfold occurrences. induction l as [|x l IH]; simpl; intros Hin He.
  - destruct Hin.
  - destruct Hin as [Hx|Hin].
    + subst x. rewrite He. simpl. lia.
    + specialize (IH Hin He). destruct (event_eqb e x); simpl; lia.
Qed.

Lemma metadata_calls_of_calls (l : list Event) :
  metadata_calls l = metadata_calls (calls l).
Proof.
  unfold metadata_calls, calls.
  induction l as [|e l IH]; simpl; [reflexivity|].
  destruct e; simpl; rewrite ?IH; reflexivity.
Qed.

Lemma metadata_calls_records (records : list Record_) :
  metadata_calls (map EvRecord records) = [].
Proof. induction records; simpl; auto. Qed.

Section Claims.

Variable W : Wire.
Variable cb : Callbacks.
Variable T : Transport.

Local Abbreviation run := (run W cb T).

Lemma run_init_reachable (schedule : list Thread) :
  reachable W cb T (run schedule (init T)).
Proof. apply run_reachable, reachable_init. Qed.

Lemma returned_state (s : State) :
  outcome s = Some Returned -> terminated s = false /\ consumer s = C_Returned.
Proof.
  unfold outcome. destruct (terminated s); [discriminate|].
  destruct (consumer s); try discriminate. auto.
Qed.

(** Whatever the schedule, the calls of the callbacks are none, or the
    metadata callback once and then record callbacks only. *)
Lemma calls_shape (schedule : list Thread) :
  let s := run schedule (init T) in
  calls (log s) = [] \/
  exists metadata records,
    calls (log s) = EvMetadata metadata :: map EvRecord records /\
    length records <= record_count_of W metadata.
Proof.
  intros s. pose proof (data_consumer (reachable_data (run_init_reachable schedule)))
    as Hview. fold s in Hview.
  destruct (consumer s); simpl in Hview.
  - left. tauto.
  - left. tauto.
  - destruct Hview as (m & _ & Hc & HK & Hi & Hle). right.
    exists m, seen. split; [exact Hc | lia].
  - destruct Hview as (m & _ & Hc & HK & Hi & Hle). right.
    exists m, seen. split; [exact Hc | lia].
  - destruct Hview as (m & seen & _ & Hc & Hl). right.
    exists m, seen. split; [exact Hc | lia].
  - destruct Hview as (m & seen & _ & Hc & Hl). right.
    exists m, seen. split; [exact Hc | lia].
  - exact Hview.
  - exact Hview.
Qed.

(** A normal return has seen the metadata callback once and the record
    callback on each of [record_count] frames, the frames the body starts
    with. *)
Lemma returned_calls (schedule : list Thread) :
  let s := run schedule (init T) in
  outcome s = Some Returned ->
  exists metadata records rest,
    parsed (log s) = metadata :: records /\
    calls (log s) = EvMetadata metadata :: map EvRecord records /\
    length records = record_count_of W metadata /\
    concat (chunks T) = metadata ++ concat records ++ rest.
Proof.
  intros s Hout.
  pose proof (run_init_reachable schedule) as Hr. fold s in Hr.
  destruct (returned_state _ Hout) as [_ Hc].
  pose proof (reachable_data Hr) as [Hbytes Hchunks Hview].
  destruct (sync_returned (reachable_sync Hr) Hc) as [Hp _].
  rewrite Hp in Hchunks. rewrite Hc in Hview. simpl in Hview.
  destruct Hview as (m & seen & Hparsed & Hcalls & Hlen).
  destruct Hchunks as [rest Hrest].
  exists m, seen, (buffer (dbz_parser s) ++ concat rest).
  repeat split; try assumption.
  rewrite <- Hrest, concat_app, <- Hbytes, Hparsed. simpl.
  rewrite <- !app_assoc. reflexivity.
Qed.

(** On a well-formed stream with obliging callbacks every schedule that is
    long enough ends in a normal return. *)
Lemma obliging_run_returns (metadata : Metadata) (records : list Record_)
    (extra : bytes) (schedule : list Thread) :
  well_formed W T metadata records extra ->
  ending T = Complete ->
  obliging cb metadata records ->
  fuel (init T) <= length schedule ->
  let s := run schedule (init T) in
  outcome s = Some Returned /\
  calls (log s) = EvMetadata metadata :: map EvRecord records.
Proof.
  intros Hwf Hend Hobl Hlen s.
  pose proof (run_init_reachable schedule) as Hr. fold s in Hr.
  pose proof (run_final W cb T schedule (init T) Hlen) as Hfinal.
  fold s in Hfinal.
  pose proof (final_outcome Hr Hfinal) as Hout.
  pose proof (reachable_live Hwf Hend Hobl Hr) as [Hrun _ _ Hcons].
  pose proof (data_consumer (reachable_data Hr)) as Hview.
  unfold outcome in *. rewrite Hrun in *.
  destruct (consumer s); try contradiction; try congruence.
  split; [reflexivity|]. simpl in Hview.
  destruct Hview as (m & seen & Hparsed & Hcalls & _).
  rewrite Hcalls. congruence.
Qed.

(** C1.  Whenever the call returns normally, the metadata callback has been
    called once and then the record callback exactly [record_count] times,
    on the frames the parser handed out, in that order, and these frames are
    the bytes of the body from its start on.  And the call does return
    normally, after exactly these calls, under every schedule, when the body
    is a metadata frame, the records it declares and possibly more bytes,
    the transfer completes, and the callbacks neither throw nor ask to
    stop. *)
Theorem record_callback_count :
  (forall schedule,
      let s := run schedule (init T) in
      outcome s = Some Returned ->
      exists metadata records rest,
        parsed (log s) = metadata :: records /\
        calls (log s) = EvMetadata metadata :: map EvRecord records /\
        length records = record_count_of W metadata /\
        concat (chunks T) = metadata ++ concat records ++ rest) /\
  (forall metadata records extra schedule,
      well_formed W T metadata records extra ->
      ending T = Complete ->
      obliging cb metadata records ->
      fuel (init T) <= length schedule ->
      let s := run schedule (init T) in
      outcome s = Some Returned /\
      calls (log s) = EvMetadata metadata :: map EvRecord records).
Proof.
  split; [exact returned_calls | exact obliging_run_returns].
Qed.

(** As long as the parser has handed out no frame, no callback has been
    called. *)
Lemma unparsed_uncalled (s : State) :
  reachable W cb T s -> parsed (log s) = [] -> calls (log s) = [].
Proof.
  induction 1 as [|s s' Hs IH [t Ht]]; [reflexivity|].
  pose proof (data_consumer (reachable_data Hs)) as Hview.
  destruct t; step_cases Ht;
    rewrite ?parsed_app, ?calls_app; simpl; rewrite ?app_nil_r;
    try exact IH;
    try (intros Hp; apply app_eq_nil in Hp; destruct Hp as [_ Hp];
         discriminate Hp);
    try match goal with
        | H : consumer s = _ |- _ => rewrite H in Hview; simpl in Hview
        end;
    intros Hp; exfalso;
    repeat match goal with
           | H : exists _, _ |- _ => destruct H
           | H : _ /\ _ |- _ => destruct H
           end;
    congruence.
Qed.

(** Once an exception has left the body the calling thread parses nothing
    more, whatever the schedule. *)
Lemma thrown_slot (s : State) (t : Thread) :
  match consumer s with C_Unwinding _ | C_Raised _ => True | _ => False end ->
  match consumer (slot W cb T s t) with
  | C_Unwinding _ | C_Raised _ => True
  | _ => False
  end /\
  parsed (log (slot W cb T s t)) = parsed (log s).
Proof.
  intros Hc. destruct (slot_cases W cb T s t) as [[t' Ht]|[_ ->]];
    [|split; [exact Hc|reflexivity]].
  destruct t'; step_cases Ht; rewrite ?parsed_app; simpl;
    rewrite ?app_nil_r;
    try match goal with
        | H : consumer s = _ |- _ => rewrite H in Hc; simpl in Hc
        end;
    try (destruct Hc; fail);
    split; first [exact Hc | exact I | reflexivity].
Qed.

Lemma thrown_run (more : list Thread) :
  forall s,
    match consumer s with C_Unwinding _ | C_Raised _ => True | _ => False end ->
    parsed (log (run more s)) = parsed (log s).
Proof.
  induction more as [|t more IH]; intros s Hc; [reflexivity|].
  destruct (thrown_slot s t Hc) as [Hc' Hp].
  change (run (t :: more) s) with (run more (slot W cb T s t)).
  rewrite (IH _ Hc'). exact Hp.
Qed.

(** C6, as the code has it.  Under every schedule the metadata callback is
    called at most once and before any call of the record callback; it has
    been called exactly once when the call returns normally.  It is not
    called when [ParseMetadata] throws: while the parser has handed out no
    frame neither callback has been called, and when the calling thread is
    at line 626 and [ParseMetadata] throws there, neither callback is
    called in the rest of the run, whatever the schedule, and the call does
    not return. *)
Theorem metadata_callback_first (schedule : list Thread) :
  let s := run schedule (init T) in
  (calls (log s) = [] \/
   exists metadata records,
     calls (log s) = EvMetadata metadata :: map EvRecord records) /\
  length (metadata_calls (log s)) <= 1 /\
  (outcome s = Some Returned -> length (metadata_calls (log s)) = 1) /\
  (parsed (log s) = [] ->
   metadata_calls (log s) = [] /\ calls (log s) = []) /\
  (forall e more,
      consumer s = C_ParseMetadata ->
      ParseMetadata W (dbz_parser s) = Fails e ->
      let s' := run (schedule ++ consumer_thread :: more) (init T) in
      metadata_calls (log s') = [] /\ calls (log s') = [] /\
      outcome s' <> Some Returned).
Proof.
  intros s. pose proof (calls_shape schedule) as Hshape. fold s in Hshape.
  assert (Hnone : forall schedule',
             parsed (log (run schedule' (init T))) = [] ->
             metadata_calls (log (run schedule' (init T))) = [] /\
             calls (log (run schedule' (init T))) = []).
  { intros schedule' Hp.
    pose proof (unparsed_uncalled (run_init_reachable schedule') Hp) as Hc.
    rewrite metadata_calls_of_calls, Hc. split; reflexivity. }
  split; [|split; [|split; [|split]]].
  - destruct Hshape as [Hnil|(m & records & Hc & _)]; eauto.
  - rewrite metadata_calls_of_calls.
    destruct Hshape as [Hnil|(m & records & Hc & _)].
    + rewrite Hnil. simpl. lia.
    + rewrite Hc. simpl. rewrite metadata_calls_records. simpl. lia.
  - intros Hout. rewrite metadata_calls_of_calls.
    destruct (returned_calls schedule Hout)
      as (m & records & _ & _ & Hc & _).
    fold s in Hc. rewrite Hc. simpl.
    rewrite metadata_calls_records. reflexivity.
  - apply Hnone.
  - intros e more Hat Hfails s'.
    assert (Hp : parsed (log s) = []).
    { pose proof (data_consumer (reachable_data (run_init_reachable schedule)))
        as Hview.
      fold s in Hview. rewrite Hat in Hview. exact (proj1 Hview). }
    assert (Hp' : parsed (log s') = []).
    { unfold s', run, Stream.run. rewrite fold_left_app. simpl.
      fold (run schedule (init T)). fold s.
      destruct (terminated s) eqn:Hterm.
      - assert (Hfinal : final W cb T s = true).
        { unfold final, producer_step, consumer_step. rewrite Hterm.
          reflexivity. }
        assert (Hslot : slot W cb T s consumer_thread = s).
        { unfold slot, step_of, other, producer_step, consumer_step.
          rewrite Hterm. reflexivity. }
        rewrite Hslot.
        pose proof (@run_of_final W cb T more s Hfinal) as Hrun.
        unfold run, Stream.run in Hrun. rewrite Hrun. exact Hp.
      - assert (Hslot : slot W cb T s consumer_thread = throw s e []).
        { unfold slot, step_of, consumer_step.
          rewrite Hterm, Hat, Hfails. reflexivity. }
        rewrite Hslot.
        pose proof (thrown_run more (throw s e []) I) as Hrun.
        unfold run, Stream.run in Hrun. rewrite Hrun.
        unfold throw. simpl. rewrite parsed_app, Hp. reflexivity. }
    destruct (Hnone _ Hp') as [Hm Hc]. fold s' in Hm, Hc.
    split; [exact Hm|]. split; [exact Hc|].
    intros Hout.
    destruct (returned_calls (schedule ++ consumer_thread :: more) Hout)
      as (m & records & _ & _ & Hc' & _).
    fold s' in Hc'. rewrite Hc in Hc'. discriminate Hc'.
Qed.

(** No exception ever reaches the caller: when one leaves the body, the
    thread is joinable and its destructor ends the program. *)
Lemma never_raised (schedule : list Thread) (e : Error) :
  outcome (run schedule (init T)) <> Some (Raised e).
Proof.
  pose proof (reachable_sync (run_init_reachable schedule)) as Hs.
  unfold outcome. destruct (terminated (run schedule (init T)));
    [discriminate|].
  destruct (consumer (run schedule (init T))) eqn:Hc; try discriminate.
  destruct (sync_raised Hs Hc).
Qed.

(** C3, as the code has it.  When the call returns normally the calling
    thread has joined the producer, which had finished.  When an exception
    leaves the body, the producer has not been joined and never is: the
    thread object is joinable, so the next step of the calling thread, the
    destructor of [std::thread], calls [std::terminate].  No exception
    reaches the caller. *)
Theorem join_on_normal_return_only (schedule : list Thread) :
  let s := run schedule (init T) in
  (outcome s = Some Returned ->
   occurrences EvJoin (log s) = 1 /\ In EvJoin (log s) /\
   producer s = P_Done /\ joinable s = false) /\
  (forall e, consumer s = C_Unwinding e ->
             joinable s = true /\ ~ In EvJoin (log s) /\
             (terminated s = false ->
              exists s', consumer_step W cb s = Some s' /\
                         outcome s' = Some Terminated /\
                         ~ In EvJoin (log s'))) /\
  (forall e, outcome s <> Some (Raised e)).
Proof.
  intros s. pose proof (reachable_sync (run_init_reachable schedule)) as Hs.
  fold s in Hs. split; [|split].
  - intros Hout. destruct (returned_state _ Hout) as [_ Hc].
    pose proof (sync_join Hs) as Hj. pose proof (sync_joinable Hs) as Hjb.
    rewrite Hc in Hj, Hjb. simpl in Hj, Hjb.
    repeat split; try assumption.
    + apply occurrences_pos; [lia | reflexivity].
    + exact (proj1 (sync_returned Hs Hc)).
  - intros e Hc.
    pose proof (sync_join Hs) as Hj. pose proof (sync_joinable Hs) as Hjb.
    rewrite Hc in Hj, Hjb. simpl in Hj, Hjb.
    assert (Hnj : ~ In EvJoin (log s))
      by (apply occurrences_zero; [exact Hj | reflexivity]).
    repeat split; try assumption.
    intros Hrun. unfold consumer_step. rewrite Hrun, Hc, Hjb.
    eexists. split; [reflexivity|]. split; [reflexivity|]. simpl.
    intros Hin. apply in_app_or in Hin. destruct Hin as [Hin|[Hin|[]]].
    + exact (Hnj Hin).
    + discriminate.
  - intros e. apply never_raised.
Qed.

(** The state after a failed read. *)
Lemma failed_transfer (schedule : list Thread) :
  let s := run schedule (init T) in
  In (EvTransferEnd Failed) (log s) ->
  producer s = P_Uncaught TransportError /\
  outcome s = Some Terminated /\
  ~ In EvEndInput (log s) /\ ~ In EvJoin (log s).
Proof.
  intros s. pose proof (reachable_sync (run_init_reachable schedule)) as Hs.
  fold s in Hs.
  intros Hin. apply In_occurrences in Hin; [|reflexivity].
  rewrite (sync_failed Hs) in Hin.
  destruct (producer s) as [| | | |e] eqn:Hp; try lia.
  destruct (sync_uncaught Hs Hp) as [Hterm ->].
  pose proof (sync_end_input Hs) as Hend.
  pose proof (sync_join Hs) as Hj.
  rewrite Hp in Hend. simpl in Hend.
  repeat split.
  - unfold outcome. rewrite Hterm. reflexivity.
  - apply occurrences_zero; [exact Hend | reflexivity].
  - apply occurrences_zero; [|reflexivity].
    destruct (consumer s) eqn:Hc; try exact Hj.
    destruct (sync_returned Hs Hc). congruence.
Qed.

(** C4, as the code has it.  When the read fails the exception leaves the
    thread function, which has no handler: [std::terminate] is called, the
    end of input is not signalled, nothing is joined, and no error is
    raised on the calling thread. *)
Theorem transport_error_terminates (schedule : list Thread) :
  let s := run schedule (init T) in
  (In (EvTransferEnd Failed) (log s) ->
   producer s = P_Uncaught TransportError /\
   outcome s = Some Terminated /\
   ~ In EvEndInput (log s) /\ ~ In EvJoin (log s)) /\
  (forall e, outcome s <> Some (Raised e)).
Proof.
  intros s. split; [exact (failed_transfer schedule)|].
  intros e. apply never_raised.
Qed.

(** C5, as the code has it.  One thread is started.  When [GetRawStream]
    returns, because the body is complete or because the receiver returned
    false, the producer is about to call [EndInput] and does so in its next
    step, or has called it, once.  When [GetRawStream] throws, [EndInput] is
    not called. *)
Theorem end_input_after_return (schedule : list Thread) :
  let s := run schedule (init T) in
  occurrences EvSpawn (log s) = 1 /\
  (In (EvTransferEnd Succeeded) (log s) \/
   In (EvTransferEnd Cancelled) (log s) ->
   (producer s = P_Done /\ occurrences EvEndInput (log s) = 1) \/
   (producer s = P_EndInput /\
    (terminated s = false ->
     exists s', producer_step T s = Some s' /\ producer s' = P_Done /\
                In EvEndInput (log s')))) /\
  (In (EvTransferEnd Failed) (log s) -> ~ In EvEndInput (log s)) /\
  (outcome s = Some Returned -> occurrences EvEndInput (log s) = 1).
Proof.
  intros s. pose proof (reachable_sync (run_init_reachable schedule)) as Hs.
  fold s in Hs.
  pose proof (sync_end_input Hs) as Hend.
  split; [exact (sync_spawn Hs)|]. split; [|split].
  - intros Hin.
    assert (Hpos : 0 < occurrences (EvTransferEnd Succeeded) (log s)
                       + occurrences (EvTransferEnd Cancelled) (log s)).
    { destruct Hin as [Hin|Hin]; apply In_occurrences in Hin;
        try reflexivity; lia. }
    rewrite (sync_ended Hs) in Hpos.
    destruct (producer s) eqn:Hp; try lia.
    + right. split; [reflexivity|]. intros Hrun.
      unfold producer_step. rewrite Hrun, Hp.
      eexists. split; [reflexivity|]. split; [reflexivity|]. simpl.
      apply in_or_app. right. left. reflexivity.
    + left. split; [reflexivity | exact Hend].
  - intros Hin. exact (proj1 (proj2 (proj2 (failed_transfer schedule Hin)))).
  - intros Hout. destruct (returned_state _ Hout) as [_ Hc].
    destruct (sync_returned Hs Hc) as [Hp _].
    rewrite Hp in Hend. exact Hend.
Qed.

End Claims.

(** *** Concrete runs *)

Lemma record_callback_count_witness :
  outcome (run wire willing across_frames alternating (init across_frames))
  = Some Returned /\
  calls (log (run wire willing across_frames alternating
                (init across_frames)))
  = EvMetadata metadata3 :: map EvRecord [record1; record2; record3].
Proof.
  apply (proj2 (record_callback_count wire willing across_frames)
           metadata3 [record1; record2; record3] [] alternating).
  - constructor.
    + reflexivity.
    + unfold valid_frame. simpl. lia.
    + repeat constructor; simpl; lia.
    + reflexivity.
  - reflexivity.
  - split; [reflexivity | intros; reflexivity].
  - vm_compute. lia.
Defined.

(** C2.  The callback asks to stop at the first of three records (and at
    each later one).  When the producer has passed on the whole body before
    the calling thread starts, the flag is never read as false, the record
    callback is still called on the two records that follow, which came in
    two chunks, and the call returns.  When the two threads alternate, the
    producer reads the flag, ends the transfer and signals the end of
    input; the loop goes on, one more record is handed to the callback, the
    next [ParseRecord] throws, and the program is terminated without a
    join. *)
Theorem stop_does_not_end_the_loop :
  let s1 := run wire stopping by_frame producer_first (init by_frame) in
  let s2 := run wire stopping by_frame alternating (init by_frame) in
  chunks by_frame = [metadata3; record1; record2; record3] /\
  record_count_of wire metadata3 = 3 /\
  (final wire stopping by_frame s1 = true /\
   outcome s1 = Some Returned /\
   record_calls (log s1) = [record1; record2; record3] /\
   records_after_stop (log s1) = [record2; record3] /\
   occurrences (EvTransferEnd Cancelled) (log s1) = 0) /\
  (final wire stopping by_frame s2 = true /\
   outcome s2 = Some Terminated /\
   record_calls (log s2) = [record1; record2] /\
   occurrences (EvTransferEnd Cancelled) (log s2) = 1 /\
   occurrences EvEndInput (log s2) = 1 /\
   consumer s2 = C_Unwinding EndOfStream /\
   occurrences EvJoin (log s2) = 0).
Proof. vm_compute. repeat split. Qed.

(** C3 as stated fails: the record callback throws at the second record, the
    call is over, and there has been no join. *)
Lemma join_on_every_exit_counterexample :
  ~ (forall schedule,
        let s := run wire throwing by_frame schedule (init by_frame) in
        outcome s <> None -> In EvJoin (log s)).
Proof.
  intros H. specialize (H alternating). cbv zeta in H.
  assert (Hin : In EvJoin
                  (log (run wire throwing by_frame alternating
                          (init by_frame))))
    by (apply H; vm_compute; discriminate).
  clear H. pose proof (In_occurrences _ _ Hin eq_refl) as Hpos. clear Hin.
  vm_compute in Hpos. inversion Hpos.
Qed.

(** C4 as stated fails: the body breaks off after the first record, the
    calling thread has thrown nothing, and the call does not end with the
    transport error raised to the caller. *)
Lemma transport_error_counterexample :
  ~ (forall schedule,
        let s := run wire willing broken schedule (init broken) in
        final wire willing broken s = true ->
        In (EvTransferEnd Failed) (log s) ->
        (forall e, consumer s <> C_Unwinding e) ->
        outcome s = Some (Raised TransportError)).
Proof.
  intros H. specialize (H alternating). cbv zeta in H.
  assert (Hout : outcome (run wire willing broken alternating (init broken))
                 = Some (Raised TransportError)).
  { apply H.
    - vm_compute. reflexivity.
    - apply occurrences_pos; [vm_compute; lia | reflexivity].
    - intros e. vm_compute. discriminate. }
  vm_compute in Hout. discriminate.
Qed.

(** C5 as stated fails: the transfer has ended, with an error, no thread can
    run any more, and [EndInput] has not been called. *)
Lemma end_input_counterexample :
  ~ (forall schedule,
        let s := run wire willing broken schedule (init broken) in
        final wire willing broken s = true ->
        (exists how, In (EvTransferEnd how) (log s)) ->
        In EvEndInput (log s)).
Proof.
  intros H. specialize (H alternating). cbv zeta in H.
  assert (Hin : In EvEndInput
                  (log (run wire willing broken alternating (init broken)))).
  { apply H.
    - vm_compute. reflexivity.
    - exists Failed. apply occurrences_pos; [vm_compute; lia | reflexivity]. }
  clear H. pose proof (In_occurrences _ _ Hin eq_refl) as Hpos. clear Hin.
  vm_compute in Hpos. inversion Hpos.
Qed.

(** C6 as stated fails: the metadata header declares 255 bytes, above the
    maximum; [ParseMetadata] throws and the run ends without a call of the
    metadata callback. *)
Lemma metadata_callback_counterexample :
  ~ (forall schedule,
        let s := run wire willing absurd schedule (init absurd) in
        final wire willing absurd s = true ->
        length (metadata_calls (log s)) = 1).
Proof.
  intros H. specialize (H alternating). cbv zeta in H.
  assert (Hlen : length (metadata_calls
                           (log (run wire willing absurd alternating
                                   (init absurd)))) = 1)
    by (apply H; vm_compute; reflexivity).
  vm_compute in Hlen. discriminate.
Qed.

(** On that stream, once the producer has passed the chunk on, the calling
    thread is at line 626 and [ParseMetadata] throws. *)
Lemma metadata_callback_first_witness :
  let s := run wire willing absurd [P] (init absurd) in
  consumer s = C_ParseMetadata /\
  ParseMetadata wire (dbz_parser s) = Fails DecodeError /\
  let s' := run wire willing absurd ([P] ++ C :: alternating) (init absurd) in
  metadata_calls (log s') = [] /\ calls (log s') = [] /\
  outcome s' <> Some Returned.
Proof.
  intros s. split; [reflexivity|]. split; [reflexivity|].
  apply (proj2 (proj2 (proj2 (proj2
           (@metadata_callback_first wire willing absurd [P]))))
           DecodeError alternating); reflexivity.
Defined.

End StreamProps.


(** ** More about responses *)

Lemma mapM_cons_ok {A B : Type} (f : A -> result B) (x : A) (xs : list A)
    (ys : list B) :
  mapM f (x :: xs) = Ok ys ->
  exists y ys', ys = y :: ys' /\ f x = Ok y /\ mapM f xs = Ok ys'.
Proof.
  simpl. destruct (f x) as [y|e]; simpl; [|discriminate].
  destruct (mapM f xs) as [ys'|e]; simpl; [|discriminate].
  intros H. injection H as <-. eauto.
Qed.

Lemma mapM_app_throw {A B : Type} (f : A -> result B) (pre : list A) (x : A)
    (rest : list A) (e : exn) :
  (forall y, In y pre -> is_ok (f y) = true) -> f x = Throw e ->
  mapM f (pre ++ x :: rest) = Throw e.
Proof.
  induction pre as [|y pre IH]; intros Hpre Hx; simpl.
  - rewrite Hx. reflexivity.
  - pose proof (Hpre y (or_introl eq_refl)) as Hy.
    destruct (f y); [|discriminate Hy]. simpl.
    rewrite IH; [reflexivity| |exact Hx].
    intros z Hz. apply Hpre. right. exact Hz.
Qed.

Lemma length_index_keys (n : nat) : length (index_keys n) = n.
Proof. unfold index_keys. rewrite length_map, length_seq. reflexivity. Qed.

Section MoreResponses.

Context {hdr : Headers}.

Local Abbreviation json := (json double).

(** A loop over the elements of an array that gives [y] on [enc y] returns
    [l] on the array of the values [enc y] for [y] in [l]; when it accepts
    nothing else, it returns on these arrays only. *)
Lemma mapM_elements_encode {B : Type} (f : string * json -> result B)
    (enc : B -> json) :
  (forall k y, f (k, enc y) = Ok y) ->
  forall (l : list B) (keys : list string),
    length keys = length l ->
    mapM f (combine keys (map enc l)) = Ok l.
Proof.
  intros Henc. induction l as [|y l IH]; intros keys Hlen.
  - destruct keys; reflexivity.
  - destruct keys as [|k keys]; [discriminate|]. simpl.
    rewrite Henc. simpl. rewrite IH by (simpl in Hlen; lia). reflexivity.
Qed.

Lemma mapM_elements_decode {B : Type} (f : string * json -> result B)
    (enc : B -> json) :
  (forall k v y, f (k, v) = Ok y -> v = enc y) ->
  (forall k y, f (k, enc y) = Ok y) ->
  forall (elems : list json) (keys : list string) (l : list B),
    length keys = length elems ->
    (mapM f (combine keys elems) = Ok l <-> elems = map enc l).
Proof.
  intros Hdec Henc.
  induction elems as [|v elems IH]; intros keys l Hlen.
  - destruct keys; [|discriminate]. simpl. split.
    + intros H. injection H as <-. reflexivity.
    + destruct l; [reflexivity|discriminate].
  - destruct keys as [|k keys]; [discriminate|]. simpl in Hlen.
    injection Hlen as Hlen. split.
    + intros H. change (combine (k :: keys) (v :: elems))
        with ((k, v) :: combine keys elems) in H.
      apply mapM_cons_ok in H. destruct H as (y & ys & -> & Hy & Hys).
      simpl. f_equal; [exact (Hdec _ _ _ Hy)|].
      apply (IH keys ys Hlen). exact Hys.
    + destruct l as [|y l]; [discriminate|]. simpl. intros H.
      injection H as -> ->. rewrite length_map in Hlen.
      apply (mapM_elements_encode f enc Henc (y :: l) (k :: keys)).
      simpl. rewrite Hlen. reflexivity.
Qed.

Lemma mapM_members_encode {A B : Type} (f : A -> result B) (enc : B -> A)
    (l : list B) :
  (forall y, f (enc y) = Ok y) -> mapM f (map enc l) = Ok l.
Proof.
  intros Henc. induction l as [|y l IH]; simpl; [reflexivity|].
  rewrite Henc. simpl. rewrite IH. reflexivity.
Qed.

Lemma mapM_Forall2 {A B : Type} (f : A -> result B) (xs : list A) :
  forall ys, mapM f xs = Ok ys <-> Forall2 (fun x y => f x = Ok y) xs ys.
Proof.
  induction xs as [|x xs IH]; intros ys; split.
  - simpl. intros H. injection H as <-. constructor.
  - intros H. inversion H. reflexivity.
  - intros H. apply mapM_cons_ok in H. destruct H as (y & ys' & -> & Hy & Hys).
    constructor; [exact Hy|]. apply IH. exact Hys.
  - intros H. inversion H as [|x' y xs' ys' Hy Hys]; subst. simpl.
    rewrite Hy. simpl. rewrite (proj2 (IH ys') Hys). reflexivity.
Qed.

Lemma mapM_all_throw {A B : Type} (f : A -> result B) (xs : list A)
    (ys : list B) :
  (forall x, is_ok (f x) = false) -> mapM f xs = Ok ys -> xs = [] /\ ys = [].
Proof.
  intros Hf. destruct xs as [|x xs]; simpl.
  - intros H. injection H as <-. split; reflexivity.
  - specialize (Hf x). destruct (f x); [discriminate|]. discriminate.
Qed.

Lemma CheckedAt_member (endpoint : string) (members : list (string * json))
    (key : string) (v : json) :
  lookup key members = Some v ->
  CheckedAt endpoint (Jobject members) key = Ok v.
Proof. intros H. unfold CheckedAt, contains, at_key. rewrite H. reflexivity. Qed.

Lemma CheckedAt_absent (endpoint : string) (members : list (string * json))
    (key : string) :
  lookup key members = None ->
  CheckedAt endpoint (Jobject members) key = Throw (MissingKey endpoint key).
Proof. intros H. unfold CheckedAt, contains. rewrite H. reflexivity. Qed.

Lemma CheckedAt_cases (endpoint : string) (j : json) (key : string) :
  (exists members v, j = Jobject members /\ lookup key members = Some v /\
                     CheckedAt endpoint j key = Ok v) \/
  CheckedAt endpoint j key = Throw (MissingKey endpoint key).
Proof.
  destruct j as [| | | | | | |members]; try (right; reflexivity).
  destruct (lookup key members) as [v|] eqn:Hl.
  - left. exists members, v. auto using CheckedAt_member.
  - right. apply CheckedAt_absent. exact Hl.
Qed.

Lemma size_t_of_unsigned (m : N) :
  Z.to_N (wrap 64 (Z.of_N m)) = (m mod 2 ^ 64)%N.
Proof.
  unfold wrap. change (2 ^ 64)%Z with (Z.of_N (2 ^ 64)).
  rewrite <- N2Z.inj_mod. apply N2Z.id.
Qed.

Lemma combine_app_eq {A B : Type} (l1 : list A) (l1' : list B) :
  forall (l2 : list A) (l2' : list B),
    length l1 = length l1' ->
    combine (l1 ++ l2) (l1' ++ l2') = combine l1 l1' ++ combine l2 l2'.
Proof.
  revert l1'. induction l1 as [|x l1 IH]; intros [|y l1'] l2 l2' H;
    try discriminate; simpl; [reflexivity|].
  rewrite IH by (simpl in H; lia). reflexivity.
Qed.

Lemma items_array (pre : list json) (v : json) (rest : list json) :
  exists ks1 ks2,
    items (Jarray (pre ++ v :: rest))
    = combine ks1 pre ++ (to_string (N.of_nat (length pre)), v) :: ks2 /\
    length ks1 = length pre.
Proof.
  simpl. unfold index_keys. rewrite length_app. simpl.
  replace (length pre + S (length rest)) with (length pre + (1 + length rest))
    by lia.
  rewrite seq_app, map_app. simpl.
  exists (map (fun i => to_string (N.of_nat i)) (seq 0 (length pre))).
  exists (combine (map (fun i => to_string (N.of_nat i))
                     (seq (S (length pre)) (length rest))) rest).
  split; [|rewrite length_map, length_seq; reflexivity].
  rewrite combine_app_eq by (rewrite length_map, length_seq; reflexivity).
  reflexivity.
Qed.

Lemma string_item_decode (endpoint expected : string) (k : string) (v : json)
    (y : string) :
  (if negb (is_string v)
   then throw_of (TypeMismatch_at endpoint expected (Jstring k) v)
   else get_string v) = Ok y ->
  v = Jstring y.
Proof.
  destruct v; simpl; unfold throw_of, TypeMismatch_at; simpl;
    try discriminate.
  intros H. injection H as ->. reflexivity.
Qed.

Lemma strings_loop (endpoint expected : string) (elems : list json)
    (l : list string) :
  mapM (fun item =>
          if negb (is_string (snd item))
          then throw_of (TypeMismatch_at endpoint expected
                           (Jstring (fst item)) (snd item))
          else get_string (snd item))
       (items (Jarray elems)) = Ok l
  <-> elems = map Jstring l.
Proof.
  apply mapM_elements_decode.
  - intros k v y. apply string_item_decode.
  - reflexivity.
  - apply length_index_keys.
Qed.

(** X1.  [MetadataListDatasets] returns a list exactly when the response is
    an array of strings, and the list is then these strings in order: a
    [null], an object, and an array with one element of another kind all
    raise. *)
Theorem MetadataListDatasets_returns_iff (j : json) (datasets : list string) :
  MetadataListDatasets_response j = Ok datasets
  <-> j = Jarray (map Jstring datasets).
Proof.
  unfold MetadataListDatasets_response.
  destruct j as [| | | | | |elems|]; cbn [is_array negb];
    try (split; intros H; discriminate H).
  rewrite strings_loop. split; [intros ->; reflexivity|].
  intros H. injection H as H. exact H.
Qed.

(** X2.  When an element of the array is not a string, [MetadataListDatasets]
    throws the type mismatch of the first such element, which it names by
    its index; the elements behind it are not looked at. *)
Theorem MetadataListDatasets_first_mismatch (datasets : list string)
    (v : json) (rest : list json) :
  is_string v = false ->
  MetadataListDatasets_response (Jarray (map Jstring datasets ++ v :: rest))
  = throw_of (TypeMismatch_at "ListDatasets" "string"
                (Jstring (to_string (N.of_nat (length datasets)))) v).
Proof.
  intros Hv. unfold MetadataListDatasets_response.
  change (negb (is_array (Jarray (map Jstring datasets ++ v :: rest))))
    with false. cbv iota.
  destruct (items_array (map Jstring datasets) v rest)
    as (ks1 & ks2 & -> & Hlen).
  rewrite length_map in *.
  apply mapM_app_throw.
  - intros [k x] Hin. apply in_combine_r in Hin. apply in_map_iff in Hin.
    destruct Hin as (s & <- & _). reflexivity.
  - simpl. rewrite Hv. reflexivity.
Qed.

(** X3.  [MetadataListPublishers] returns exactly on the objects whose
    values are all integers, signed or unsigned: the map has the keys of the
    object, and each identifier is the value reduced to 32 bits, so a value
    outside [std::int32_t] comes back wrapped, not rejected. *)
Theorem MetadataListPublishers_returns_iff (j : json)
    (publishers : list (string * Z)) :
  MetadataListPublishers_response j = Ok publishers
  <-> exists members,
        j = Jobject members /\
        Forall2 (fun member entry =>
                   fst entry = fst member /\
                   exists z, int_value (snd member) = Some z /\
                             snd entry = wrap_signed 32 z)
                members publishers.
Proof.
  unfold MetadataListPublishers_response.
  destruct j as [| | | | | | |members]; cbn [is_object negb];
    try (split; [intros H; discriminate H
                |intros (members & H & _); discriminate H]).
  cbn [items]. rewrite mapM_Forall2. split.
  - intros H. exists members. split; [reflexivity|].
    eapply Forall2_impl; [|exact H].
    intros [k v] [k' z'] Hf. cbn [fst snd] in *.
    destruct v; cbn in Hf; try discriminate Hf;
      injection Hf as <- <-; (split; [reflexivity|]); eexists;
      (split; [reflexivity|reflexivity]).
  - intros (members' & Heq & H). injection Heq as <-.
    eapply Forall2_impl; [|exact H].
    intros [k v] [k' z'] (Hk & z & Hz & Hz'). cbn [fst snd] in *. subst.
    destruct v; cbn in Hz; try discriminate Hz; injection Hz as <-;
      reflexivity.
Qed.

(** X4.  The three operations whose response is one number.
    [MetadataGetBillableSize] returns exactly when the server answers an
    unsigned integer, which it returns reduced to 64 bits; a negative
    integer and a float raise.  [MetadataGetCost] and the price overload of
    [MetadataListUnitPrices] return on every number: a float as it is, an
    integer of either sign cast to [double]. *)
Theorem number_responses :
  (forall dataset start end_ symbols schema stype_in limit n,
      MetadataGetBillableSize dataset start end_ symbols schema stype_in limit
      = Ok n
      <-> exists m,
            GetJson (BuildMetadataPath ".get_billable_size")
              (MetadataGetBillableSize_params dataset start end_ symbols
                 schema stype_in limit) = Ok (Jnumber_unsigned m) /\
            n = (m mod 2 ^ 64)%N) /\
  (forall dataset start end_ mode symbols schema stype_in limit d,
      MetadataGetCost dataset start end_ mode symbols schema stype_in limit
      = Ok d
      <-> exists j,
            GetJson (BuildMetadataPath ".get_cost")
              (MetadataGetCost_params dataset start end_ mode symbols schema
                 stype_in limit) = Ok j /\
            (j = Jnumber_float d \/
             exists z, int_value j = Some z /\ d = double_of_Z z)) /\
  (forall j d,
      MetadataListUnitPrices_price_response j = Ok d
      <-> (j = Jnumber_float d \/
           exists z, int_value j = Some z /\ d = double_of_Z z)).
Proof.
  assert (Hdouble : forall endpoint (j : json) d,
             (if negb (is_number j)
              then Throw (TypeMismatch endpoint "number" j)
              else get_double double_of_Z j) = Ok d
             <-> (j = Jnumber_float d \/
                  exists z, int_value j = Some z /\ d = double_of_Z z)).
  { intros endpoint j d.
    destruct j as [|b|n|i|x|s|a|o];
      cbn [is_number negb get_double int_value];
      split; intros H;
      try discriminate H;
      try (destruct H as [H|(z & H & _)]; discriminate H).
    - injection H as <-. right. eauto.
    - destruct H as [H|(z & H & ->)]; [discriminate H|].
      injection H as <-. reflexivity.
    - injection H as <-. right. eauto.
    - destruct H as [H|(z & H & ->)]; [discriminate H|].
      injection H as <-. reflexivity.
    - injection H as <-. left. reflexivity.
    - destruct H as [H|(z & H & _)]; [|discriminate H].
      injection H as <-. reflexivity. }
  split; [|split].
  - intros dataset start end_ symbols schema stype_in limit n.
    unfold MetadataGetBillableSize.
    destruct (GetJson _ _) as [j|e]; cbn [bind].
    + unfold MetadataGetBillableSize_response. split.
      * destruct j; cbn [is_number_unsigned negb get_size_t]; intros H;
          try discriminate H.
        injection H as <-. eexists. split; [reflexivity|].
        apply size_t_of_unsigned.
      * intros (m & Hj & ->). injection Hj as ->.
        cbn [is_number_unsigned negb get_size_t].
        rewrite size_t_of_unsigned. reflexivity.
    + split; [intros H; discriminate H|intros (m & H & _); discriminate H].
  - intros dataset start end_ mode symbols schema stype_in limit d.
    unfold MetadataGetCost.
    destruct (GetJson _ _) as [j|e]; cbn [bind].
    + unfold MetadataGetCost_response. rewrite Hdouble. split.
      * intros H. exists j. split; [reflexivity|exact H].
      * intros (j' & Hj & H). injection Hj as <-. exact H.
    + split; [intros H; discriminate H|intros (m & H & _); discriminate H].
  - intros j d. unfold MetadataListUnitPrices_price_response. apply Hdouble.
Qed.

Ltac no_member Hthrow :=
  let H := fresh in
  split; [intros H; discriminate H|];
  intros H; decompose record H; subst;
  match goal with
  | Hl : lookup _ _ = Some _ |- _ =>
      rewrite (CheckedAt_member _ _ _ Hl) in Hthrow; discriminate Hthrow
  end.

Ltac the_member Hl :=
  let H := fresh in
  let Hj := fresh in
  let Hl' := fresh in
  intros H; decompose record H;
  match goal with
  | Hj : Jobject _ = Jobject _ |- _ => injection Hj as <-
  end;
  match goal with
  | Hl' : lookup _ _ = Some _ |- _ =>
      rewrite Hl in Hl'; injection Hl' as ->
  end; subst.

(** X5.  The scalar specialisations of [ParseAt] return exactly when the
    response is an object that holds a value of the expected kind under the
    key: a boolean, a string, an unsigned integer (reduced to 64 bits, and
    read as a signed count of nanoseconds for a time).  Otherwise they throw
    the client's own errors, [MissingKey] when the key is absent or the
    response is no object and [TypeMismatch] when the value is of another
    kind: no exception of the JSON library leaves them. *)
Theorem ParseAt_scalars (endpoint : string) (j : json) (key : string) :
  (forall b, ParseAt_bool endpoint j key = Ok b
             <-> exists members, j = Jobject members /\
                                 lookup key members = Some (Jboolean b)) /\
  (forall s, ParseAt_string endpoint j key = Ok s
             <-> exists members, j = Jobject members /\
                                 lookup key members = Some (Jstring s)) /\
  (forall n, ParseAt_size_t endpoint j key = Ok n
             <-> exists members m,
                   j = Jobject members /\
                   lookup key members = Some (Jnumber_unsigned m) /\
                   n = (m mod 2 ^ 64)%N) /\
  (forall t, ParseAt_EpochNanos endpoint j key = Ok t
             <-> exists members m,
                   j = Jobject members /\
                   lookup key members = Some (Jnumber_unsigned m) /\
                   t = EpochNanos_of (wrap_signed 64 (Z.of_N m))) /\
  (forall e,
      ParseAt_bool endpoint j key = Throw e \/
      ParseAt_string endpoint j key = Throw e \/
      ParseAt_size_t endpoint j key = Throw e \/
      ParseAt_EpochNanos endpoint j key = Throw e ->
      e = MissingKey endpoint key \/
      exists expected v, e = TypeMismatch endpoint (key ++ expected) v).
Proof.
  unfold ParseAt_bool, ParseAt_string, ParseAt_size_t, ParseAt_EpochNanos.
  destruct (CheckedAt_cases endpoint j key)
    as [(members & v & -> & Hl & Hv)|Hthrow].
  - rewrite Hv. cbn [bind]. repeat split.
    + destruct v; cbn [is_boolean negb get_bool]; intros H;
        try discriminate H.
      injection H as <-. eauto.
    + the_member Hl. reflexivity.
    + destruct v; cbn [is_string negb get_string]; intros H;
        try discriminate H.
      injection H as <-. eauto.
    + the_member Hl. reflexivity.
    + destruct v; cbn [is_number_unsigned negb get_size_t]; intros H;
        try discriminate H.
      injection H as <-. do 2 eexists.
      split; [reflexivity|]. split; [exact Hl|].
      apply size_t_of_unsigned.
    + the_member Hl. cbn [is_number_unsigned negb get_size_t].
      rewrite size_t_of_unsigned. reflexivity.
    + destruct v; cbn [is_number_unsigned negb get_int bind]; intros H;
        try discriminate H.
      injection H as <-. do 2 eexists.
      split; [reflexivity|]. split; [exact Hl|]. reflexivity.
    + the_member Hl. reflexivity.
    + intros e H. right.
      destruct v;
        cbn [is_boolean is_string is_number_unsigned negb get_bool get_string
             get_size_t get_int bind] in H;
        destruct H as [H|[H|[H|H]]];
        try discriminate H; injection H as <-; eauto.
  - rewrite Hthrow. cbn [bind]. split; [|split; [|split; [|split]]].
    + intros b. no_member Hthrow.
    + intros s. no_member Hthrow.
    + intros n. no_member Hthrow.
    + intros t. no_member Hthrow.
    + intros e H. left.
      destruct H as [H|[H|[H|H]]]; injection H as <-; reflexivity.
Qed.

(** X6.  [BatchSubmitJob] returns a job for no answer of the server: the
    response goes to [Parse], which reads the symbols with the loop over the
    whole response.  The call ends in an exception whatever the arguments
    and whatever the server does. *)
Theorem BatchSubmitJob_never_returns :
  (forall dataset schema symbols start end_ split_duration split_size
          packaging delivery stype_in stype_out limit job,
      BatchSubmitJob dataset schema symbols start end_ split_duration
        split_size packaging delivery stype_in stype_out limit <> Ok job) /\
  (forall dataset schema symbols start end_ job,
      BatchSubmitJob_default dataset schema symbols start end_ <> Ok job).
Proof.
  assert (H : forall dataset schema symbols start end_ split_duration
                     split_size packaging delivery stype_in stype_out limit,
             is_ok (BatchSubmitJob dataset schema symbols start end_
                      split_duration split_size packaging delivery stype_in
                      stype_out limit) = false).
  { intros. unfold BatchSubmitJob. apply is_ok_bind_right.
    intros j. apply Parse_never_returns. }
  split.
  - intros dataset schema symbols start end_ split_duration split_size
      packaging delivery stype_in stype_out limit job Hjob.
    specialize (H dataset schema symbols start end_ split_duration split_size
                  packaging delivery stype_in stype_out limit).
    rewrite Hjob in H. discriminate H.
  - intros dataset schema symbols start end_ job Hjob.
    unfold BatchSubmitJob_default in Hjob.
    specialize (H dataset schema symbols start end_ Day 0%N Packaging_None
                  Download Native ProductId 0%N).
    rewrite Hjob in H. discriminate H.
Qed.

(** X7.  [BatchListJobs] returns exactly when the response has no items
    ([null], the empty array, the empty object), and then the empty list: a
    response that lists a job makes [Parse] throw.  No call ever returns a
    job. *)
Theorem BatchListJobs_returns_nothing :
  (forall j jobs,
      BatchListJobs_response j = Ok jobs <-> items j = [] /\ jobs = []) /\
  (forall states since jobs,
      BatchListJobs states since = Ok jobs -> jobs = []) /\
  (forall jobs, BatchListJobs_default = Ok jobs -> jobs = []).
Proof.
  assert (Hresp : forall j jobs,
             BatchListJobs_response j = Ok jobs <-> items j = [] /\ jobs = []).
  { intros j jobs. unfold BatchListJobs_response. cbv zeta. split.
    - apply mapM_all_throw. intros item. apply Parse_never_returns.
    - intros [-> ->]. reflexivity. }
  assert (Hop : forall states since jobs,
             BatchListJobs states since = Ok jobs -> jobs = []).
  { intros states since jobs. unfold BatchListJobs.
    destruct (GetJson _ _) as [j|e]; cbn [bind]; [|discriminate].
    intros H. apply Hresp in H. tauto. }
  split; [exact Hresp|]. split; [exact Hop|].
  intros jobs. apply Hop.
Qed.

Lemma nested_strings_encode (endpoint : string) (l : list string) :
  nested_strings endpoint (Jarray (map Jstring l)) = Ok l.
Proof.
  unfold nested_strings. cbn [items].
  apply mapM_elements_encode; [reflexivity|].
  rewrite length_index_keys, length_map. reflexivity.
Qed.

Lemma interval_decode (endpoint : string) (k : string) (i : MappingInterval) :
  (d0 <- (v <- CheckedAt endpoint (snd (k, encode_interval i)) "d0" ;;
          get_string v) ;;
   d1 <- (v <- CheckedAt endpoint (snd (k, encode_interval i)) "d1" ;;
          get_string v) ;;
   s <- (v <- CheckedAt endpoint (snd (k, encode_interval i)) "s" ;;
         get_string v) ;;
   Ok {| start_date := d0; end_date := d1; symbol := s |}) = Ok i.
Proof. destruct i. reflexivity. Qed.

(** X8.  [SymbologyResolve] reads back what a server wrote: for every
    resolution, the response that carries its mappings under "result" (an
    array of intervals with "d0", "d1" and "s" for each symbol) and its
    partial and not-found symbols under "partial" and "not_found" is parsed
    to that resolution, with the symbols and the intervals in order. *)
Theorem SymbologyResolve_reads_back (r : SymbologyResolution) :
  SymbologyResolve_response (encode_resolution r) = Ok r.
Proof.
  destruct r as [entries some none].
  unfold SymbologyResolve_response, encode_resolution.
  cbn [mappings partial not_found].
  cbn [is_object negb].
  erewrite (CheckedAt_member "SymbologyResolve" _ "result") by reflexivity.
  erewrite (CheckedAt_member "SymbologyResolve" _ "partial") by reflexivity.
  erewrite (CheckedAt_member "SymbologyResolve" _ "not_found") by reflexivity.
  cbn [bind is_object is_array negb items].
  rewrite mapM_members_encode.
  - cbn [bind]. fold (nested_strings "SymbologyResolve").
    change (mapM _ (items (Jarray (map Jstring some))))
      with (nested_strings "SymbologyResolve" (Jarray (map Jstring some))).
    rewrite nested_strings_encode. cbn [bind].
    change (mapM _ (items (Jarray (map Jstring none))))
      with (nested_strings "SymbologyResolve" (Jarray (map Jstring none))).
    rewrite nested_strings_encode. reflexivity.
  - intros [sym intervals]. cbn [fst snd is_array negb items].
    rewrite mapM_elements_encode.
    + reflexivity.
    + intros k i. apply interval_decode.
    + rewrite length_index_keys, length_map. reflexivity.
Qed.

(** X9.  [SymbologyResolve] looks for its three keys before it checks any
    kind: on an object, the first of "result", "partial" and "not_found"
    that is absent is reported as missing, whatever is stored under the
    others; with all three present and something other than an object under
    "result", the type mismatch of the mappings is thrown. *)
Theorem SymbologyResolve_missing_keys (members : list (string * json)) :
  (lookup "result" members = None ->
   SymbologyResolve_response (Jobject members)
   = Throw (MissingKey "SymbologyResolve" "result")) /\
  (lookup "result" members <> None -> lookup "partial" members = None ->
   SymbologyResolve_response (Jobject members)
   = Throw (MissingKey "SymbologyResolve" "partial")) /\
  (lookup "result" members <> None -> lookup "partial" members <> None ->
   lookup "not_found" members = None ->
   SymbologyResolve_response (Jobject members)
   = Throw (MissingKey "SymbologyResolve" "not_found")) /\
  (forall mappings_json,
      lookup "result" members = Some mappings_json ->
      lookup "partial" members <> None ->
      lookup "not_found" members <> None ->
      is_object mappings_json = false ->
      SymbologyResolve_response (Jobject members)
      = Throw (TypeMismatch "SymbologyResolve" "mappings object"
                 mappings_json)).
Proof.
  unfold SymbologyResolve_response. cbn [is_object negb].
  destruct (lookup "result" members) as [r|] eqn:Hr;
    [rewrite (CheckedAt_member "SymbologyResolve" _ _ Hr)
    |rewrite (CheckedAt_absent "SymbologyResolve" _ _ Hr)];
  (destruct (lookup "partial" members) as [p|] eqn:Hp;
    [rewrite (CheckedAt_member "SymbologyResolve" _ _ Hp)
    |rewrite (CheckedAt_absent "SymbologyResolve" _ _ Hp)]);
  (destruct (lookup "not_found" members) as [n|] eqn:Hn;
    [rewrite (CheckedAt_member "SymbologyResolve" _ _ Hn)
    |rewrite (CheckedAt_absent "SymbologyResolve" _ _ Hn)]);
  cbn [bind]; repeat split; intros; try congruence.
  match goal with
  | H : Some _ = Some _ |- _ => injection H as ->
  end.
  match goal with
  | H : is_object _ = false |- _ => rewrite H
  end. reflexivity.
Qed.

Lemma schema_prices_encode (expected : string)
    (prices : list (Schema * double)) :
  (forall schema : Schema, FromString (ToString schema) = Ok schema) ->
  schema_prices_of expected (encode_schema_prices prices) = Ok prices.
Proof.
  intros Hschema. unfold schema_prices_of, encode_schema_prices.
  cbn [items]. apply mapM_members_encode.
  intros [schema price]. cbn [fst snd is_number negb].
  rewrite Hschema. reflexivity.
Qed.

(** X10.  The overload of [MetadataListUnitPrices] for one feed mode does
    not check that the value under the mode is an object before it loops
    over it.  A [null] or an empty array there is returned as an empty
    price map, where the overload for all modes throws the type mismatch of
    that value. *)
Theorem MetadataListUnitPrices_mode_unchecked (mode_str : string)
    (members : list (string * json)) (json_map : json) :
  lookup mode_str members = Some json_map ->
  is_object json_map = false ->
  items json_map = [] ->
  MetadataListUnitPrices_mode_response mode_str (Jobject members) = Ok [] /\
  forall key,
    MetadataListUnitPrices_response (Jobject [(key, json_map)])
    = throw_of (TypeMismatch_at kListUnitPricesEndpoint "object"
                  (Jstring key) json_map).
Proof.
  intros Hl Hobj Hitems. split.
  - unfold MetadataListUnitPrices_mode_response. cbn [is_object negb].
    rewrite (CheckedAt_member kListUnitPricesEndpoint _ _ Hl). cbn [bind].
    unfold schema_prices_of. rewrite Hitems. reflexivity.
  - intros key. unfold MetadataListUnitPrices_response.
    cbn [is_object negb items mapM fst snd]. rewrite Hobj. cbn [negb].
    unfold throw_of, TypeMismatch_at. reflexivity.
Qed.

(** X11.  When [FromString] reads back what [ToString] writes, for feed
    modes and for schemas, [MetadataListUnitPrices] reads back what a server
    wrote: the object of the prices of each schema under each mode is
    parsed to these prices, the overload for one mode returns the prices
    found under that mode, and the overload for one schema returns, for
    each mode, the price its object holds under that schema. *)
Theorem MetadataListUnitPrices_reads_back
    (prices : list (FeedMode * list (Schema * double))) :
  (forall mode : FeedMode, FromString (ToString mode) = Ok mode) ->
  (forall schema : Schema, FromString (ToString schema) = Ok schema) ->
  MetadataListUnitPrices_response (encode_prices prices) = Ok prices /\
  (forall mode schema_prices members,
      lookup (ToString mode) members
      = Some (encode_schema_prices schema_prices) ->
      MetadataListUnitPrices_mode_response (ToString mode) (Jobject members)
      = Ok schema_prices) /\
  (forall (schema : Schema) (mode_prices : list (FeedMode * double)),
      MetadataListUnitPrices_schema_response (ToString schema)
        (Jobject (map (fun entry =>
                         (ToString (fst entry),
                          encode_schema_prices [(schema, snd entry)]))
                    mode_prices))
      = Ok mode_prices).
Proof.
  intros Hmode Hschema. split; [|split].
  - unfold MetadataListUnitPrices_response, encode_prices.
    cbn [is_object negb items]. apply mapM_members_encode.
    intros [mode schema_prices]. cbn [fst snd].
    change (is_object (encode_schema_prices schema_prices)) with true.
    cbn [negb]. rewrite schema_prices_encode by exact Hschema.
    cbn [bind]. rewrite Hmode. reflexivity.
  - intros mode schema_prices members Hl.
    unfold MetadataListUnitPrices_mode_response. cbn [is_object negb].
    rewrite (CheckedAt_member kListUnitPricesEndpoint _ _ Hl). cbn [bind].
    apply schema_prices_encode. exact Hschema.
  - intros schema mode_prices.
    unfold MetadataListUnitPrices_schema_response.
    cbn [is_object negb items]. apply mapM_members_encode.
    intros [mode price]. unfold encode_schema_prices.
    cbn [fst snd map is_object negb].
    erewrite (CheckedAt_member "ListUnitPrices")
      by (cbn [lookup]; rewrite String.eqb_refl; reflexivity).
    cbn [bind is_number negb]. rewrite Hmode. reflexivity.
Qed.

(** X12.  [MetadataListSchemas] converts the strings of the response with
    [FromString], in order: when [FromString] reads back what [ToString]
    writes, the array of the names of a list of schemas is parsed to that
    list; and a name that [FromString] rejects ends the call with the
    exception [FromString] threw, also when valid names precede it. *)
Theorem MetadataListSchemas_reads_back (schemas : list Schema) :
  (forall schema : Schema, FromString (ToString schema) = Ok schema) ->
  MetadataListSchemas_response
    (Jarray (map (fun schema => Jstring (ToString schema)) schemas))
  = Ok schemas /\
  forall name e rest,
    FromString (T := Schema) name = Throw e ->
    MetadataListSchemas_response
      (Jarray (map (fun schema => Jstring (ToString schema)) schemas
               ++ Jstring name :: rest))
    = Throw e.
Proof.
  intros Hschema. unfold MetadataListSchemas_response.
  cbn [is_array negb]. split.
  - cbn [items]. apply mapM_elements_encode.
    + intros k schema. cbn [fst snd is_string negb get_string bind].
      apply Hschema.
    + rewrite length_index_keys, length_map. reflexivity.
  - intros name e rest Hname.
    destruct (items_array (map (fun schema => Jstring (ToString schema)) schemas)
                (Jstring name) rest) as (ks1 & ks2 & -> & Hlen).
    apply mapM_app_throw.
    + intros [k x] Hin. apply in_combine_r in Hin. apply in_map_iff in Hin.
      destruct Hin as (schema & <- & _).
      cbn [fst snd is_string negb get_string bind]. rewrite Hschema.
      reflexivity.
    + cbn [fst snd is_string negb get_string bind]. exact Hname.
Qed.

End MoreResponses.

Lemma MetadataListDatasets_first_mismatch_witness :
  is_string (@Jnumber_unsigned Z 7) = false /\
  MetadataListDatasets_response (hdr := Sample.env)
    (Jarray (map Jstring ["GLBX.MDP3"%string]
             ++ Jnumber_unsigned 7 :: [Jstring "XNAS.ITCH"]))
  = throw_of (TypeMismatch_at (hdr := Sample.env) "ListDatasets" "string"
                (Jstring "1") (Jnumber_unsigned 7)).
Proof.
  split; [reflexivity|].
  apply (@MetadataListDatasets_first_mismatch Sample.env
           ["GLBX.MDP3"%string] (Jnumber_unsigned 7) [Jstring "XNAS.ITCH"]).
  reflexivity.
Defined.

Lemma MetadataListUnitPrices_mode_unchecked_witness :
  MetadataListUnitPrices_mode_response (hdr := Sample.env)
    "historical-streaming"
    (Jobject [("historical-streaming"%string, Jnull)]) = Ok [] /\
  forall key,
    MetadataListUnitPrices_response (hdr := Sample.env)
      (Jobject [(key, Jnull)])
    = throw_of (TypeMismatch_at (hdr := Sample.env) kListUnitPricesEndpoint
                  "object" (Jstring key) Jnull).
Proof.
  apply (@MetadataListUnitPrices_mode_unchecked Sample.env
           "historical-streaming"
           [("historical-streaming"%string, Jnull)] Jnull);
    reflexivity.
Defined.

Lemma MetadataListUnitPrices_reads_back_witness :
  MetadataListUnitPrices_response (hdr := Sample.env)
    (Jobject [("historical-streaming"%string,
               Jobject [("mbo"%string, Jnumber_float 21%Z);
                        ("trades"%string, Jnumber_float 2%Z)])])
  = Ok [("historical-streaming"%string,
         [("mbo"%string, 21%Z); ("trades"%string, 2%Z)])].
Proof.
  apply (@MetadataListUnitPrices_reads_back Sample.env
           [("historical-streaming"%string,
             [("mbo"%string, 21%Z); ("trades"%string, 2%Z)])]);
    reflexivity.
Defined.

Lemma MetadataListSchemas_reads_back_witness :
  MetadataListSchemas_response (hdr := Sample.env)
    (Jarray [Jstring "mbo"; Jstring "trades"])
  = Ok ["mbo"%string; "trades"%string].
Proof.
  apply (@MetadataListSchemas_reads_back Sample.env
           ["mbo"%string; "trades"%string]).
  reflexivity.
Defined.

Lemma SymbologyResolve_missing_keys_witness :
  SymbologyResolve_response (hdr := Sample.env)
    (Jobject [("not_found"%string, Jnull); ("result"%string, Jnull)])
  = Throw (MissingKey "SymbologyResolve" "partial").
Proof.
  apply (@SymbologyResolve_missing_keys Sample.env
           [("not_found"%string, Jnull); ("result"%string, Jnull)]).
  - discriminate.
  - reflexivity.
Defined.

(** ** More about requests *)

Lemma In_keys_emplace (k v : string) (m : Params) (k' : string) :
  In k' (map fst (emplace k v m)) <-> k' = k \/ In k' (map fst m).
Proof.
  induction m as [|[k0 v0] m IH]; simpl.
  - intuition.
  - destruct (String.ltb k k0); simpl; [intuition|].
    rewrite IH. intuition.
Qed.

Lemma NoDup_keys_emplace (k v : string) (m : Params) :
  NoDup (map fst m) -> ~ In k (map fst m) -> NoDup (map fst (emplace k v m)).
Proof.
  induction m as [|[k0 v0] m IH]; simpl; intros Hnd Hin.
  - constructor; [tauto|constructor].
  - destruct (String.ltb k k0); simpl.
    + constructor; [exact Hin|exact Hnd].
    + inversion Hnd as [|? ? Hk0 Hm]; subst. constructor.
      * rewrite In_keys_emplace. intros [->|H]; tauto.
      * apply IH; tauto.
Qed.

Lemma keys_within_emplace (allowed : list string) (m : Params)
    (k v : string) :
  keys_within allowed m -> ~ In k allowed ->
  keys_within (k :: allowed) (emplace k v m).
Proof.
  intros [Hnd Hincl] Hk. split.
  - apply NoDup_keys_emplace; [exact Hnd|]. intros H. apply Hk, Hincl, H.
  - intros k' H. apply In_keys_emplace in H. destruct H as [->|H].
    + left. reflexivity.
    + right. apply Hincl, H.
Qed.

Lemma keys_within_more (allowed : list string) (m : Params) (k : string) :
  keys_within allowed m -> keys_within (k :: allowed) m.
Proof.
  intros [Hnd Hincl]. split; [exact Hnd|].
  intros k' H. right. apply Hincl, H.
Qed.

Lemma keys_within_SetIfPositive (allowed : list string) (m : Params)
    (k : string) (n : N) :
  keys_within allowed m -> ~ In k allowed ->
  keys_within (k :: allowed) (SetIfPositive m k n).
Proof.
  intros Hm Hk. unfold SetIfPositive.
  destruct (0 <? n)%N;
    [apply keys_within_emplace|apply keys_within_more]; assumption.
Qed.

Lemma keys_within_SetIfNotEmpty (allowed : list string) (m : Params)
    (k v : string) :
  keys_within allowed m -> ~ In k allowed ->
  keys_within (k :: allowed) (SetIfNotEmpty m k v).
Proof.
  intros Hm Hk. unfold SetIfNotEmpty.
  destruct (negb (str_empty v));
    [apply keys_within_emplace|apply keys_within_more]; assumption.
Qed.

Lemma keys_within_SetIfNotEmpty_strings (allowed : list string) (m : Params)
    (k : string) (strings : list string) :
  keys_within allowed m -> ~ In k allowed ->
  keys_within (k :: allowed) (SetIfNotEmpty_strings m k strings).
Proof.
  intros Hm Hk. unfold SetIfNotEmpty_strings.
  destruct strings;
    [apply keys_within_more|apply keys_within_emplace]; assumption.
Qed.

Lemma keys_within_params_of (init : list (string * string)) :
  forall (allowed : list string) (m : Params),
    keys_within allowed m ->
    NoDup (map fst init) ->
    (forall k, In k (map fst init) -> ~ In k allowed) ->
    keys_within (rev (map fst init) ++ allowed)
      (fold_left (fun m kv => emplace (fst kv) (snd kv) m) init m).
Proof.
  induction init as [|[k v] init IH]; intros allowed m Hm Hnd Hfresh.
  - exact Hm.
  - simpl. rewrite <- app_assoc. simpl.
    inversion Hnd as [|? ? Hk Hinit]; subst.
    apply IH.
    + apply keys_within_emplace; [exact Hm|].
      apply Hfresh. left. reflexivity.
    + exact Hinit.
    + intros k' Hk' [<-|H]; [tauto|].
      apply (Hfresh k'); [right; exact Hk'|exact H].
Qed.

Lemma distinct_NoDup (keys : list string) :
  distinct keys = true -> NoDup keys.
Proof.
  induction keys as [|k rest IH]; simpl; intros H; [constructor|].
  apply andb_prop in H. destruct H as [Hk Hrest].
  constructor; [|apply IH, Hrest].
  intros Hin. apply negb_true_iff in Hk.
  assert (existsb (String.eqb k) rest = true) as Hex.
  { apply existsb_exists. exists k. split; [exact Hin|apply String.eqb_refl]. }
  congruence.
Qed.

Lemma keys_within_initial (init : list (string * string)) :
  distinct (map fst init) = true ->
  keys_within (rev (map fst init)) (params_of init).
Proof.
  intros H. rewrite <- (app_nil_r (rev (map fst init))).
  apply keys_within_params_of.
  - split; [constructor|]. intros k [].
  - apply distinct_NoDup, H.
  - intros k _ [].
Qed.

Lemma not_In_keys (k : string) (keys : list string) :
  existsb (String.eqb k) keys = false -> ~ In k keys.
Proof.
  intros H Hin.
  assert (existsb (String.eqb k) keys = true) as Hex.
  { apply existsb_exists. exists k. split; [exact Hin|apply String.eqb_refl]. }
  congruence.
Qed.

Lemma keys_within_incl (allowed allowed' : list string) (m : Params) :
  keys_within allowed m -> incl allowed allowed' -> keys_within allowed' m.
Proof.
  intros [Hnd Hincl] H. split; [exact Hnd|].
  intros k Hk. apply H, Hincl, Hk.
Qed.

Ltac keys :=
  repeat first
    [ apply keys_within_SetIfPositive; [|apply not_In_keys; reflexivity]
    | apply keys_within_SetIfNotEmpty; [|apply not_In_keys; reflexivity]
    | apply keys_within_SetIfNotEmpty_strings;
      [|apply not_In_keys; reflexivity] ];
  lazymatch goal with
  | |- keys_within _ (params_of ?init) =>
      exact (@keys_within_initial init eq_refl)
  | |- keys_within _ [] => split; [constructor|intros ? []]
  end.

Section MoreRequests.

Context {hdr : Headers}.

Lemma keys_within_SetIfNotEmpty_states (allowed : list string) (m : Params)
    (k : string) (states : list BatchState) :
  keys_within allowed m -> ~ In k allowed ->
  keys_within (k :: allowed) (SetIfNotEmpty_states m k states).
Proof.
  intros Hm Hk. unfold SetIfNotEmpty_states.
  destruct states;
    [apply keys_within_more|apply keys_within_emplace]; assumption.
Qed.

(** X13.  The parameters an operation always sends: under each of these
    keys the request holds exactly one value, the argument (an enumeration
    in its textual form), whatever the optional arguments are;
    [BatchSubmitJob] always asks for the encoding "dbz". *)
Theorem required_parameters_sent :
  (forall dataset schema symbols start end_ split_duration split_size
          packaging delivery stype_in stype_out limit,
      let params := BatchSubmitJob_params dataset schema symbols start end_
                      split_duration split_size packaging delivery stype_in
                      stype_out limit in
      values_at "dataset" params = [dataset] /\
      values_at "schema" params = [ToString schema] /\
      values_at "encoding" params = ["dbz"%string] /\
      values_at "start" params = [start] /\
      values_at "end" params = [end_] /\
      values_at "split_duration" params = [ToString split_duration] /\
      values_at "packaging" params = [ToString packaging] /\
      values_at "delivery" params = [ToString delivery] /\
      values_at "stype_in" params = [ToString stype_in] /\
      values_at "stype_out" params = [ToString stype_out]) /\
  (forall dataset start_date end_date,
      values_at "dataset"
        (MetadataListSchemas_params dataset start_date end_date)
      = [dataset]) /\
  (forall dataset start end_ symbols schema stype_in limit,
      let params := MetadataGetBillableSize_params dataset start end_ symbols
                      schema stype_in limit in
      values_at "dataset" params = [dataset] /\
      values_at "schema" params = [ToString schema] /\
      values_at "stype_in" params = [ToString stype_in]) /\
  (forall dataset start end_ mode symbols schema stype_in limit,
      let params := MetadataGetCost_params dataset start end_ mode symbols
                      schema stype_in limit in
      values_at "dataset" params = [dataset] /\
      values_at "mode" params = [ToString mode] /\
      values_at "schema" params = [ToString schema] /\
      values_at "stype_in" params = [ToString stype_in]) /\
  (forall dataset symbols stype_in stype_out start_date end_date
          default_value,
      let params := SymbologyResolve_params dataset symbols stype_in
                      stype_out start_date end_date default_value in
      values_at "dataset" params = [dataset] /\
      values_at "stype_in" params = [ToString stype_in] /\
      values_at "stype_out" params = [ToString stype_out]) /\
  (forall dataset symbols schema start end_ stype_in stype_out limit,
      let params := TimeseriesStream_params dataset symbols schema start end_
                      stype_in stype_out limit in
      values_at "dataset" params = [dataset] /\
      values_at "schema" params = [ToString schema] /\
      values_at "stype_in" params = [ToString stype_in] /\
      values_at "stype_out" params = [ToString stype_out] /\
      values_at "start" params = [ToString_time start] /\
      values_at "end" params = [ToString_time end_]).
Proof.
  repeat match goal with |- _ /\ _ => split end; intros;
    repeat match goal with |- _ /\ _ => split end;
    try subst params;
    unfold BatchSubmitJob_params, MetadataListSchemas_params,
      MetadataGetBillableSize_params, MetadataGetCost_params,
      SymbologyResolve_params, TimeseriesStream_params;
    cbv zeta; other_keys; reflexivity.
Qed.

(** X14.  No request holds a key twice, and none holds a key other than
    the parameters of its operation: a [Params] is a multimap and would
    take duplicates, but each helper inserts under a key of its own. *)
Theorem request_keys_distinct :
  (forall dataset schema symbols start end_ split_duration split_size
          packaging delivery stype_in stype_out limit,
      keys_within ["symbols"; "limit"; "split_size"; "stype_out"; "stype_in";
                   "delivery"; "packaging"; "split_duration"; "end"; "start";
                   "encoding"; "schema"; "dataset"]%string
        (BatchSubmitJob_params dataset schema symbols start end_
           split_duration split_size packaging delivery stype_in stype_out
           limit)) /\
  (forall states since,
      keys_within ["since"; "states"]%string
        (BatchListJobs_params states since)) /\
  (forall start_date end_date,
      keys_within ["end_date"; "start_date"]%string
        (MetadataListDatasets_params start_date end_date)) /\
  (forall dataset start_date end_date,
      keys_within ["end_date"; "start_date"; "dataset"]%string
        (MetadataListSchemas_params dataset start_date end_date)) /\
  (forall dataset start end_ symbols schema stype_in limit,
      keys_within ["symbols"; "limit"; "end"; "start"; "stype_in"; "schema";
                   "dataset"]%string
        (MetadataGetBillableSize_params dataset start end_ symbols schema
           stype_in limit)) /\
  (forall dataset start end_ mode symbols schema stype_in limit,
      keys_within ["limit"; "symbols"; "end"; "start"; "stype_in"; "schema";
                   "mode"; "dataset"]%string
        (MetadataGetCost_params dataset start end_ mode symbols schema
           stype_in limit)) /\
  (forall dataset symbols stype_in stype_out start_date end_date
          default_value,
      keys_within ["symbols"; "default_value"; "end_date"; "start_date";
                   "stype_out"; "stype_in"; "dataset"]%string
        (SymbologyResolve_params dataset symbols stype_in stype_out
           start_date end_date default_value)) /\
  (forall dataset symbols schema start end_ stype_in stype_out limit,
      keys_within ["limit"; "symbols"; "end"; "start"; "stype_out";
                   "stype_in"; "schema"; "dataset"]%string
        (TimeseriesStream_params dataset symbols schema start end_ stype_in
           stype_out limit)).
Proof.
  repeat match goal with |- _ /\ _ => split end; intros;
    unfold BatchSubmitJob_params, BatchListJobs_params,
      MetadataListDatasets_params, MetadataListSchemas_params,
      MetadataGetBillableSize_params, MetadataGetCost_params,
      SymbologyResolve_params, TimeseriesStream_params;
    cbv zeta.
  - keys.
  - apply keys_within_SetIfNotEmpty; [|apply not_In_keys; reflexivity].
    apply keys_within_SetIfNotEmpty_states; [|apply not_In_keys; reflexivity].
    split; [constructor|intros ? []].
  - keys.
  - keys.
  - keys.
  - keys.
  - keys.
  - keys.
Qed.

End MoreRequests.

(** ** More about TimeseriesStream *)

Module StreamMore.

Import Stream StreamSample StreamProps.

Lemma stored_flag_app (l l' : list Event) :
  stored_flag (l ++ l')
  = fold_left (fun flag e => match e with EvStore b => b | _ => flag end)
      l' (stored_flag l).
Proof. unfold stored_flag. apply fold_left_app. Qed.

Lemma fold_flag_false (l : list Event) :
  forall flag,
    fold_left (fun flag e => match e with EvStore b => b | _ => flag end)
      l flag = false ->
    flag = false \/ In (EvStore false) l.
Proof.
  induction l as [|e l IH]; simpl; intros flag H; [left; exact H|].
  apply IH in H. destruct H as [H|H]; [|right; right; exact H].
  destruct e; try (left; exact H).
  subst. right. left. reflexivity.
Qed.

Lemma stored_flag_false (l : list Event) :
  stored_flag l = false -> In (EvStore false) l.
Proof.
  intros H. apply fold_flag_false in H. destruct H as [H|H];
    [discriminate H|exact H].
Qed.

Lemma record_calls_of_calls (l : list Event) :
  record_calls l = record_calls (calls l).
Proof.
  induction l as [|e l IH]; [reflexivity|].
  destruct e; simpl; rewrite ?IH; reflexivity.
Qed.

Lemma record_calls_records (records : list Record_) :
  record_calls (map EvRecord records) = records.
Proof.
  induction records as [|r records IH]; simpl; [reflexivity|].
  rewrite IH. reflexivity.
Qed.

Lemma metadata_calls_app (l l' : list Event) :
  metadata_calls (l ++ l') = metadata_calls l ++ metadata_calls l'.
Proof. apply flat_map_app. Qed.

Lemma record_calls_app (l l' : list Event) :
  record_calls (l ++ l') = record_calls l ++ record_calls l'.
Proof. apply flat_map_app. Qed.

Lemma stores_app (l l' : list Event) :
  stores (l ++ l') = stores l ++ stores l'.
Proof. apply flat_map_app. Qed.

Lemma stored_flag_last (l : list Event) :
  stored_flag l = last (stores l) true.
Proof.
  induction l as [|e l IH] using rev_ind; [reflexivity|].
  rewrite stored_flag_app, stores_app, IH. simpl.
  destruct e; simpl; rewrite ?app_nil_r; try reflexivity.
  rewrite last_last. reflexivity.
Qed.

Lemma answers_app (cb : Callbacks) (rs : list Record_) (r : Record_) :
  forall seen,
    answers cb seen (rs ++ [r])
    = answers cb seen rs
      ++ match callback cb (seen ++ rs) r with
         | Returns k => [is_Continue k]
         | Raises _ => []
         end.
Proof.
  induction rs as [|x rs IH]; intros seen; simpl.
  - rewrite !app_nil_r. reflexivity.
  - rewrite IH, <- !app_assoc. reflexivity.
Qed.

Section MoreInvariants.

Variable W : Wire.
Variable cb : Callbacks.
Variable T : Transport.

Local Abbreviation step := (step W cb T).
Local Abbreviation reachable := (reachable W cb T).
Local Abbreviation run := (run W cb T).

(** The flag and the log: the flag holds what the stores left, a transfer
    is cancelled only on a flag that a store cleared, and each store holds
    the answer of a call of the record callback. *)
Lemma reachable_flag (s : State) :
  reachable s ->
  should_continue s = stored_flag (log s) /\
  (In (EvTransferEnd Cancelled) (log s) -> In (EvStore false) (log s)) /\
  (forall b, In (EvStore b) (log s) ->
             exists seen r k, callback cb seen r = Returns k /\
                              is_Continue k = b).
Proof.
  induction 1 as [|s s' _ (Hflag & Hcancel & Hstore) [t Ht]].
  - simpl. split; [reflexivity|]. split.
    + intros [H|[]]. discriminate H.
    + intros b [H|[]]. discriminate H.
  - destruct t; step_cases Ht;
      rewrite ?stored_flag_app; simpl;
      (split; [first [exact Hflag | reflexivity]|]);
      (split;
       [ intros Hin; try apply in_app_or in Hin;
         lazymatch type of Hin with
         | _ \/ _ =>
             destruct Hin as [Hin|Hin];
             [ apply in_or_app; left; apply Hcancel, Hin
             | simpl in Hin;
               repeat match goal with
                      | H : _ \/ _ |- _ => destruct H
                      | H : False |- _ => destruct H
                      | H : _ = EvTransferEnd Cancelled |- _ =>
                          try discriminate H; clear H
                      end;
               try (apply in_or_app; left; apply stored_flag_false;
                    congruence) ]
         | _ => apply Hcancel, Hin
         end
       | intros b Hin; try apply in_app_or in Hin;
         lazymatch type of Hin with
         | _ \/ _ =>
             destruct Hin as [Hin|Hin]; [exact (Hstore b Hin)|];
             simpl in Hin;
             repeat match goal with
                    | H : _ \/ _ |- _ => destruct H
                    | H : False |- _ => destruct H
                    | H : _ = EvStore _ |- _ =>
                        first [discriminate H | injection H as <-]
                    end;
             eauto
         | _ => exact (Hstore b Hin)
         end ]).
Qed.

(** The frames the parser has handed out are those the callbacks were
    called on, in order, and the one in hand. *)
Lemma reachable_frames (s : State) :
  reachable s ->
  parsed (log s)
  = metadata_calls (log s) ++ record_calls (log s) ++ in_hand (consumer s).
Proof.
  induction 1 as [|s s' Hs IH [t Ht]]; [reflexivity|].
  pose proof (data_consumer (reachable_data Hs)) as Hview.
  destruct t; step_cases Ht;
    rewrite ?parsed_app, ?metadata_calls_app, ?record_calls_app; simpl;
    rewrite ?app_nil_r;
    try match goal with
        | H : consumer s = _ |- _ => rewrite H in IH, Hview; simpl in IH, Hview
        end;
    rewrite ?app_nil_r in IH; try exact IH.
  all: try (rewrite IH, <- ?app_assoc; reflexivity).
  all: try (destruct Hview as [_ Hc];
            rewrite (record_calls_of_calls (log s)), Hc in *; simpl in *;
            rewrite ?app_nil_r in *; exact IH).
Qed.

(** A transfer ends in success only when the whole body was passed on. *)
Lemma reachable_succeeded (s : State) :
  reachable s ->
  In (EvTransferEnd Succeeded) (log s) -> passed (log s) = chunks T.
Proof.
  induction 1 as [|s s' Hs IH [t Ht]].
  - intros [H|[]]. discriminate H.
  - pose proof (data_chunks (reachable_data Hs)) as Hchunks.
    pose proof (sync_ended (reachable_sync Hs)) as Hended.
    destruct t; step_cases Ht; rewrite ?passed_app; simpl;
      rewrite ?app_nil_r;
      try match goal with
          | H : producer s = _ |- _ =>
              rewrite H in Hchunks, Hended; simpl in Hchunks, Hended
          end;
      intros Hin; try apply in_app_or in Hin;
      try (rewrite app_nil_r in Hchunks; exact Hchunks);
      lazymatch type of Hin with
      | _ \/ _ =>
          destruct Hin as [Hin|Hin];
          [ first [ exact (IH Hin)
                  | apply (In_occurrences (EvTransferEnd Succeeded)) in Hin;
                    [lia|reflexivity] ]
          | simpl in Hin;
            repeat match goal with
                   | H : _ \/ _ |- _ => destruct H
                   | H : False |- _ => destruct H
                   | H : _ = EvTransferEnd Succeeded |- _ => discriminate H
                   end ]
      | _ => exact (IH Hin)
      end.
Qed.

(** X15.  [TimeseriesStream] never hangs and never throws to its caller:
    under every schedule of the two threads, after at most two steps for
    each chunk, two for each byte of the body and nine more, no thread can
    run, and the call has then either returned or ended the program in
    [std::terminate]; further scheduling changes nothing. *)
Theorem every_run_ends (schedule : list Thread) :
  2 * length (chunks T) + 2 * length (concat (chunks T)) + 9
  <= length schedule ->
  let s := run schedule (init T) in
  final W cb T s = true /\
  (outcome s = Some Returned \/ outcome s = Some Terminated) /\
  forall more, run (schedule ++ more) (init T) = s.
Proof.
  intros Hlen s.
  assert (Hfinal : final W cb T s = true).
  { apply run_final. unfold fuel, available. simpl. lia. }
  split; [exact Hfinal|]. split.
  - pose proof (final_outcome (run_init_reachable W cb T schedule) Hfinal)
      as Hsome.
    fold s in Hsome. destruct (outcome s) as [[|e|]|] eqn:Hout.
    + left. reflexivity.
    + destruct (@never_raised W cb T schedule e Hout).
    + right. reflexivity.
    + destruct (Hsome eq_refl).
  - intros more. unfold run, Stream.run. rewrite fold_left_app.
    apply (@run_of_final W cb T more s Hfinal).
Qed.

(** X16.  The transfer is cancelled only on the word of the record
    callback: when [GetRawStream] has ended because the receiver returned
    false, a store has cleared the flag before, and the record callback has
    answered [Stop] on some call.  With a callback that never answers
    [Stop] the flag stays set and the transfer is never cancelled. *)
Theorem cancelled_only_after_stop (schedule : list Thread) :
  let s := run schedule (init T) in
  (In (EvTransferEnd Cancelled) (log s) ->
   In (EvStore false) (log s) /\
   exists seen r, callback cb seen r = Returns Stop) /\
  ((forall seen r, callback cb seen r <> Returns Stop) ->
   should_continue s = true /\ ~ In (EvTransferEnd Cancelled) (log s)).
Proof.
  intros s.
  destruct (reachable_flag (run_init_reachable W cb T schedule))
    as (Hflag & Hcancel & Hstore).
  fold s in Hflag, Hcancel, Hstore.
  assert (Hstop : In (EvStore false) (log s) ->
                  exists seen r, callback cb seen r = Returns Stop).
  { intros Hin. destruct (Hstore false Hin) as (seen & r & k & Hk & Hc).
    exists seen, r. destruct k; [discriminate Hc|exact Hk]. }
  split.
  - intros Hin. split; [exact (Hcancel Hin)|exact (Hstop (Hcancel Hin))].
  - intros Hnever.
    assert (Hno : ~ In (EvStore false) (log s)).
    { intros Hin. destruct (Hstop Hin) as (seen & r & Hk).
      exact (Hnever seen r Hk). }
    split.
    + rewrite Hflag. destruct (stored_flag (log s)) eqn:Hf; [reflexivity|].
      destruct (Hno (stored_flag_false _ Hf)).
    + intros Hin. exact (Hno (Hcancel Hin)).
Qed.

(** The stores of the log are the answers of the calls of the record
    callback that have returned, one store for each, in order. *)
Lemma reachable_stores (s : State) :
  reachable s -> stores (log s) = answers cb [] (record_calls (log s)).
Proof.
  induction 1 as [|s s' Hs IH [t Ht]]; [reflexivity|].
  pose proof (data_consumer (reachable_data Hs)) as Hview.
  assert (Hseen : forall i K seen r,
             consumer s = C_Callback i K seen r ->
             record_calls (log s) = seen).
  { intros i K seen r Hc. rewrite Hc in Hview. simpl in Hview.
    destruct Hview as (m & _ & Hcalls & _).
    rewrite record_calls_of_calls, Hcalls. simpl.
    apply record_calls_records. }
  destruct t; step_cases Ht;
    rewrite ?stores_app, ?record_calls_app; simpl; rewrite ?app_nil_r;
    try exact IH;
    rewrite answers_app, <- IH; simpl;
    rewrite (Hseen _ _ _ _ eq_refl);
    match goal with
    | H : callback cb _ _ = _ |- _ => rewrite H
    end;
    rewrite ?app_nil_r; reflexivity.
Qed.

(** X17.  The flag the producer reads holds the answer of the latest call
    of the record callback that has returned, and it is set before the
    first: every call that returns is followed by one store of its answer
    (true for [Continue]), nothing else is stored, and the flag is the value
    stored last, so a [Continue] after a [Stop] sets it again. *)
Theorem flag_is_latest_answer (schedule : list Thread) :
  let s := run schedule (init T) in
  stores (log s) = answers cb [] (record_calls (log s)) /\
  should_continue s = last (stores (log s)) true /\
  should_continue s = last (answers cb [] (record_calls (log s))) true.
Proof.
  intros s.
  pose proof (reachable_stores (run_init_reachable W cb T schedule))
    as Hstores.
  destruct (reachable_flag (run_init_reachable W cb T schedule))
    as (Hflag & _ & _).
  fold s in Hstores, Hflag.
  rewrite stored_flag_last in Hflag.
  split; [exact Hstores|]. split; [exact Hflag|].
  rewrite <- Hstores. exact Hflag.
Qed.

(** X18.  Frames reach the callbacks as the parser hands them out: at every
    point of every run the frames parsed so far are the one given to the
    metadata callback, then those given to the record callback, in order,
    then the one the calling thread holds and has not yet passed on; none
    is dropped and none is given twice.  What the callbacks have seen,
    concatenated, is a prefix of the body.  The record callback is not
    called before the metadata callback, and on no more records than the
    metadata declare, also in the runs that do not return. *)
Theorem frames_reach_the_callbacks (schedule : list Thread) :
  let s := run schedule (init T) in
  parsed (log s)
  = metadata_calls (log s) ++ record_calls (log s) ++ in_hand (consumer s) /\
  (exists rest,
      concat (metadata_calls (log s)) ++ concat (record_calls (log s)) ++ rest
      = concat (chunks T)) /\
  ((metadata_calls (log s) = [] /\ record_calls (log s) = []) \/
   exists metadata,
     metadata_calls (log s) = [metadata] /\
     length (record_calls (log s)) <= record_count_of W metadata).
Proof.
  intros s.
  pose proof (reachable_frames (run_init_reachable W cb T schedule)) as Hframes.
  pose proof (reachable_data (run_init_reachable W cb T schedule)) as Hdata.
  fold s in Hframes, Hdata. split; [exact Hframes|]. split.
  - pose proof (data_bytes Hdata) as Hbytes.
    assert (Hpre : exists rest, passed (log s) ++ rest = chunks T).
    { pose proof (data_chunks Hdata) as Hchunks.
      destruct (producer s); eauto. }
    destruct Hpre as (rest & Hrest).
    exists (concat (in_hand (consumer s)) ++ buffer (dbz_parser s)
            ++ concat rest).
    rewrite <- Hrest, concat_app, <- Hbytes, Hframes, !concat_app.
    rewrite <- !app_assoc. reflexivity.
  - pose proof (calls_shape W cb T schedule) as Hshape. fold s in Hshape.
    rewrite metadata_calls_of_calls, record_calls_of_calls.
    destruct Hshape as [Hc|(metadata & records & Hc & Hle)]; rewrite Hc.
    + left. split; reflexivity.
    + right. exists metadata. simpl.
      rewrite metadata_calls_records, record_calls_records.
      split; [reflexivity|exact Hle].
Qed.

(** X19.  The producer hands the chunks of the body to the parser as they
    come, in order: what has been passed on is at every point a prefix of
    the chunks, and it is all of them once [GetRawStream] has returned at
    the end of the body.  The parser keeps every byte: the frames handed
    out followed by its buffer are the bytes passed in. *)
Theorem chunks_passed_in_order (schedule : list Thread) :
  let s := run schedule (init T) in
  (exists rest, passed (log s) ++ rest = chunks T) /\
  (In (EvTransferEnd Succeeded) (log s) -> passed (log s) = chunks T) /\
  concat (parsed (log s)) ++ buffer (dbz_parser s) = concat (passed (log s)).
Proof.
  intros s.
  pose proof (reachable_data (run_init_reachable W cb T schedule)) as Hdata.
  fold s in Hdata. split; [|split].
  - pose proof (data_chunks Hdata) as Hchunks.
    destruct (producer s); eauto.
  - apply reachable_succeeded, run_init_reachable.
  - exact (data_bytes Hdata).
Qed.

End MoreInvariants.

Lemma every_run_ends_witness :
  2 * length (chunks by_frame) + 2 * length (concat (chunks by_frame)) + 9
  <= length alternating /\
  let s := run wire willing by_frame alternating (init by_frame) in
  final wire willing by_frame s = true /\
  (outcome s = Some Returned \/ outcome s = Some Terminated) /\
  forall more, run wire willing by_frame (alternating ++ more) (init by_frame)
               = s.
Proof.
  split; [vm_compute; lia|].
  apply (@every_run_ends wire willing by_frame alternating).
  vm_compute. lia.
Defined.

Lemma cancelled_only_after_stop_witness :
  let s := run wire stopping by_frame alternating (init by_frame) in
  In (EvTransferEnd Cancelled) (log s) /\
  In (EvStore false) (log s) /\
  exists seen r, callback stopping seen r = Returns Stop.
Proof.
  intros s. assert (Hin : In (EvTransferEnd Cancelled) (log s)).
  { vm_compute. repeat (first [left; reflexivity | right]). }
  split; [exact Hin|].
  exact (proj1 (@cancelled_only_after_stop wire stopping by_frame alternating)
           Hin).
Defined.

End StreamMore.

(** ** The mock server and the error messages *)

Section SplitSend.

Variable Server : Type.
Variable Send : Server -> list Byte.byte -> Server.

(** X20.  [SplitSendRecord] sends a record whole, in two packets: for a
    record at least as long as a record header, the first packet is the
    header, exactly [sizeof(RecordHeader)] bytes, the second the rest, and
    the two together are the packet [SendRecord] sends; until
    [send_remaining] holds only the header has gone out. *)
Theorem SplitSendRecord_sends_the_record (header_size : nat) (srv : Server)
    (rec : list Byte.byte) :
  header_size <= length rec ->
  exists first_part second_part,
    first_part ++ second_part = rec /\
    length first_part = header_size /\
    MockLsgServer.SplitSendRecord Send header_size true srv rec
    = Some (Send (Send srv first_part) second_part, true) /\
    MockLsgServer.SplitSendRecord Send header_size false srv rec
    = Some (Send srv first_part, false) /\
    MockLsgServer.SendRecord Send srv rec
    = Send srv (first_part ++ second_part).
Proof.
  intros Hlen.
  exists (firstn header_size rec), (skipn header_size rec).
  assert (Hrest : firstn (length rec - header_size) (skipn header_size rec)
                  = skipn header_size rec).
  { apply firstn_all2. rewrite length_skipn. lia. }
  unfold MockLsgServer.SplitSendRecord, MockLsgServer.SendRecord.
  rewrite (proj2 (Nat.ltb_ge _ _) Hlen). cbv zeta. rewrite Hrest.
  rewrite firstn_skipn. repeat split.
  rewrite length_firstn. lia.
Qed.

End SplitSend.

Lemma SplitSendRecord_sends_the_record_witness :
  exists first_part second_part,
    first_part ++ second_part = StreamSample.record2 /\
    length first_part = 2 /\
    MockLsgServer.SplitSendRecord (fun srv msg => srv ++ [msg]) 2 true []
      StreamSample.record2
    = Some ([first_part; second_part], true) /\
    MockLsgServer.SplitSendRecord (fun srv msg => srv ++ [msg]) 2 false []
      StreamSample.record2
    = Some ([first_part], false) /\
    MockLsgServer.SendRecord (fun srv msg => srv ++ [msg]) []
      StreamSample.record2
    = [first_part ++ second_part].
Proof.
  apply (@SplitSendRecord_sends_the_record (list (list Byte.byte))
           (fun srv msg => srv ++ [msg]) 2 [] StreamSample.record2).
  vm_compute. lia.
Defined.

Lemma string_length_append (a b : string) :
  String.length (a ++ b) = String.length a + String.length b.
Proof. induction a as [|x a IH]; simpl; [reflexivity|]. rewrite IH. reflexivity. Qed.

Lemma append_inv_tail (a b c : string) :
  (a ++ c)%string = (b ++ c)%string -> a = b.
Proof.
  revert b. induction a as [|x a IH]; intros [|y b] H; simpl in H.
  - reflexivity.
  - apply (f_equal String.length) in H. simpl in H.
    rewrite string_length_append in H. lia.
  - apply (f_equal String.length) in H. simpl in H.
    rewrite string_length_append in H. lia.
  - injection H as -> H. f_equal. apply IH, H.
Qed.

Section Messages.

Context {hdr : Headers}.

Local Abbreviation json := (json double).

(** X21.  The errors raised in [historical.cpp] carry the texts of the
    factories of [JsonResponseError]: both overloads of the local
    [TypeMismatch] build the message of the factory of the same name for
    the same arguments.  The local [MissingKey] prints the key as a string
    and the factory as a JSON value: the two messages are the same exactly
    when the serialised key is the key itself. *)
Theorem error_messages_agree :
  (forall endpoint expected (j : json),
      TypeMismatch endpoint expected j
      = runtime_error (JsonResponseError_TypeMismatch endpoint expected j)) /\
  (forall endpoint expected (key value : json),
      TypeMismatch_at endpoint expected key value
      = Throw (runtime_error
                 (JsonResponseError_TypeMismatch_at endpoint expected key
                    value))) /\
  (forall endpoint key,
      MissingKey endpoint key
      = runtime_error (JsonResponseError_MissingKey endpoint (Jstring key))
      <-> dump (Jstring key) = key).
Proof.
  split; [reflexivity|]. split; [reflexivity|].
  intros endpoint key. unfold MissingKey, JsonResponseError_MissingKey. split.
  - intros H. injection H as H. symmetry.
    exact (append_inv_tail _ _ _ H).
  - intros ->. reflexivity.
Qed.

End Messages.
